(** * Drive utilities: duplicate remover and photo date fixer

    A shallow embedding of [deduper/dedup.py] and
    [photo-date-fixer/datefix.py], and the properties of their grouping,
    reporting and batching logic.

    Both scripts talk to the outside world in three ways only: they print
    lines, they read one line at a prompt, and they hand batches of requests
    to [BatchHttpRequest.execute].  These are recorded as a trace of events;
    the remote service and the user are parameters of a run. *)

From stdpp Require Import gmap strings list fin_maps pretty.
From Stdlib Require Import QArith_base.

Open Scope string_scope.
Open Scope list_scope.
Open Scope nat_scope.

(** ** Console, prompt and batch calls *)

Module Console.

(** The two requests the scripts build: [client.files().trash(fileId=..)]
    and [client.files().patch(fileId=.., setModifiedDate=True,
    body={'modifiedDate': ..})]. *)
Inductive request :=
| Trash (fileId : string)
| Patch (fileId : string) (modifiedDate : string).

#[global] Instance request_eq_dec : EqDecision request.
Proof. solve_decision. Defined.

(** What one call of [batch.execute()] can do: raise (the call as a whole
    fails and the exception leaves the script, which has no handler), or
    return, the service having answered each sub-operation on its own
    ([true] for success).  The scripts register no callback, so the answers
    of a returning call reach nobody. *)
Inductive response :=
| Raised
| Returned (outcomes : list bool).

Inductive event :=
| Print (line : string)
| PrintWasted (gigabytes : Q)
| RawInput (prompt : string)
| Execute (order : list request).

Definition trace := list event.

(** The surroundings of a run: how the remote service answers a batch, given
    everything that happened before, and the line typed at the prompt. *)
Record env := {
  remote : trace → list request → response;
  reply : string
}.

(** A computation reads the surroundings, extends the trace, and either
    returns a value or is left by an exception ([None]). *)
Definition io (A : Type) : Type := env → trace → option A * trace.

#[global] Instance io_ret : MRet io := λ A x _ t, (Some x, t).

#[global] Instance io_bind : MBind io := λ A B f m e t,
  match m e t with
  | (Some x, t') => f x e t'
  | (None, t') => (None, t')
  end.

Definition emit (ev : event) : io () := λ _ t, (Some (), t ++ [ev]).

Definition print (line : string) : io () := emit (Print line).

(** [raw_input(prompt)] in a run where the user gives a line.  A run whose
    input ends at the prompt, which [raw_input] leaves with [EOFError], is
    not among the runs described here. *)
Definition raw_input (prompt : string) : io string :=
  λ e t, (Some (reply e), t ++ [RawInput prompt]).

(** A call of [batch.execute()].  On a batch without requests the method
    returns at once: nothing is sent, so the service is not consulted and
    nothing can fail.  Otherwise the batch goes to the service in one round
    trip. *)
Definition execute (order : list request) : io () := λ e t,
  match order with
  | [] => (Some (), t ++ [Execute order])
  | _ :: _ =>
      match remote e t order with
      | Raised => (None, t ++ [Execute order])
      | Returned _ => (Some (), t ++ [Execute order])
      end
  end.

(** [for x in l: body], with the variables the body assigns threaded as [s]. *)
Fixpoint for_each {A S : Type} (l : list A) (body : S → A → io S) (s : S) : io S :=
  match l with
  | [] => mret s
  | x :: l' => s' ← body s x; for_each l' body s'
  end.

(** The batches handed to [execute] in a trace, oldest first. *)
Definition executed (t : trace) : list (list request) :=
  omap (λ ev, match ev with Execute order => Some order | _ => None end) t.

(** [str.strip()] of a byte string: leading and trailing whitespace (space,
    tab, line feed, vertical tab, form feed, carriage return) removed. *)
Definition isspace (c : Ascii.ascii) : bool :=
  let n := Ascii.nat_of_ascii c in (n =? 32) || ((9 <=? n) && (n <=? 13)).

Fixpoint lstrip (s : string) : string :=
  match s with
  | String c s' => if isspace c then lstrip s' else s
  | EmptyString => EmptyString
  end.

Fixpoint rstrip (s : string) : string :=
  match s with
  | EmptyString => EmptyString
  | String c s' =>
      match rstrip s' with
      | EmptyString => if isspace c then EmptyString else String c EmptyString
      | r => String c r
      end
  end.

Definition strip (s : string) : string := rstrip (lstrip s).

End Console.

Export Console.

(** ** deduper/dedup.py *)

Module Dedup.

(** One item of the listing, with the fields [fetch_all_metadata] asks for.
    [quotaBytesUsed] holds the integer [int(dupe['quotaBytesUsed'])]
    denotes. *)
Record FileRecord := {
  id : string;
  md5Checksum : string;
  title : string;
  alternateLink : string;
  quotaBytesUsed : Z
}.

Definition ONE_GIG : positive := 1073741824.

(** [index[f['md5Checksum']].append(f)] on a [defaultdict(list)]: a missing
    key starts from the empty list. *)
Definition index_append (index : gmap string (list FileRecord)) (f : FileRecord)
  : gmap string (list FileRecord) :=
  <[md5Checksum f := default [] (index !! md5Checksum f) ++ [f]]> index.

Definition build_index (files : list FileRecord) : gmap string (list FileRecord) :=
  foldl index_append ∅ files.

(** [find_dupes]: the values of the index with more than one member, in the
    order the dictionary yields its items. *)
Definition find_dupes (files : list FileRecord) : list (list FileRecord) :=
  filter (λ v, 1 < length v) ((map_to_list (build_index files)).*2).

(** Lines 101-107: print every set, add up the sizes of [dupeset[1:]]. *)
Definition report_sets (dupes : list (list FileRecord)) : io Z :=
  for_each dupes (λ total dupeset,
    print "--";;
    for_each dupeset (λ _ dupe,
      print (alternateLink dupe +:+ " " +:+ title dupe)) ();;
    for_each (drop 1 dupeset) (λ total dupe,
      mret (total + quotaBytesUsed dupe)%Z) total) 0%Z.

(** Lines 113-120: one trash request per member of [dupeset[1:]]; the batch
    is executed and replaced when it holds 1000 requests, and the batch left
    at the end is executed. *)
Definition add_to_batch (batch : list request) (dupe : FileRecord) : io (list request) :=
  let batch := batch ++ [Trash (id dupe)] in
  if length batch =? 1000 then
    execute batch;; mret []
  else mret batch.

Definition trash_extras (dupes : list (list FileRecord)) : io () :=
  batch ← for_each dupes (λ batch dupeset,
             for_each (drop 1 dupeset) add_to_batch batch) [];
  execute batch.

(** [main] from line 96 on, [dupes] being what [find_dupes] returned. *)
Definition main_from (dupes : list (list FileRecord)) : io () :=
  print (pretty (length dupes) +:+ " duplicates found. ");;
  if length dupes =? 0 then
    print "We are done."
  else
    print "Please check them.";;
    total ← report_sets dupes;
    print "--";;
    emit (PrintWasted (Qmake total ONE_GIG));;
    conf ← raw_input "Great. Now trash the extras? (y/n) ";
    if bool_decide (strip conf = "y") then
      print "Trashing.";;
      trash_extras dupes;;
      print "We are done. Check the trash for your files."
    else
      print "Not touching anything.".

(** [main], [files] being what [fetch_all_metadata] returned. *)
Definition main (files : list FileRecord) : io () :=
  main_from (find_dupes files).

End Dedup.

(** ** photo-date-fixer/datefix.py *)

Module DateFix.

(** A [datetime] as [strptime] builds it from the six fields of the format. *)
Record datetime := {
  year : nat; month : nat; day : nat;
  hour : nat; minute : nat; second : nat
}.

(** One item of the image listing.  [imageMediaMetadata] is the nested
    object, when the item has one, as a dictionary. *)
Record fmeta := {
  id : string;
  imageMediaMetadata : option (gmap string string);
  modifiedDate : string
}.

(** [xrange(start, stop, step)] for a positive step. *)
Definition xrange (start stop step : nat) : list nat :=
  (λ k, start + k * step) <$> seq 0 ((stop - start + step - 1) / step).

(** [chunks]: the slices [l[i:i+n]] for [i] in [xrange(0, len(l), n)]. *)
Definition chunks {A : Type} (l : list A) (n : nat) : list (list A) :=
  (λ i, take n (drop i l)) <$> xrange 0 (length l) n.

Section library.

(** The two methods of the standard library's [datetime] the script calls:
    [datetime.strptime(timestamp, format)], [None] standing for its
    [ValueError], and [date.isoformat(sep)]. *)
Variable strptime : string → string → option datetime.
Variable isoformat : datetime → string → string.

Definition formatDate (date : datetime) : string :=
  isoformat date "T" +:+ ".0Z".

Definition parseDate (timestamp : string) : option datetime :=
  strptime timestamp "%Y:%m:%d %H:%M:%S".

(** [fmeta.get('imageMediaMetadata').get('date')], [None] when either
    [get] finds nothing. *)
Definition exif_date (f : fmeta) : option string :=
  imageMediaMetadata f ≫= (.!! "date").

(** The body of the inner loop, lines 97-110: the batch is left as it is
    where the source says [continue], and gets one patch request
    otherwise.  A missing or empty dictionary and a missing or empty date
    are all false for [not (.. and ..)]. *)
Definition add_patch (batch : list request) (f : fmeta) : io (list request) :=
  match exif_date f with
  | None | Some "" => mret batch
  | Some timestamp =>
      match parseDate timestamp with
      | None => mret batch
      | Some real_date =>
          let pmeta := formatDate real_date in
          if bool_decide (formatDate real_date = modifiedDate f) then mret batch
          else mret (batch ++ [Patch (id f) pmeta])
      end
  end.

Definition batch_patch_dates (files : list fmeta) : io () :=
  for_each (chunks files 100) (λ _ chunk,
    batch ← for_each chunk add_patch [];
    execute batch) ().

(** [main], [files] being what [fetch_all_metadata] returned. *)
Definition main (files : list fmeta) : io () :=
  print ("Found: " +:+ pretty (length files) +:+ " images.");;
  conf ← raw_input "Great. Now fix the dates? (y/n) ";
  (if bool_decide (strip conf = "y") then batch_patch_dates files else mret ());;
  print "And we are done.".

End library.

End DateFix.

(** ** Vocabulary of the specification *)

Import Dedup.

(** Every batch call returns: no call as a whole fails.  The outcomes of
    the sub-operations are free. *)
Definition always_returns (e : env) : Prop :=
  ∀ t order, remote e t order ≠ Raised.

(** What a call of [execute] meets: the answer of the service, or, for a
    batch without requests, the immediate return. *)
Definition answer (e : env) (t : trace) (order : list request) : response :=
  match order with
  | [] => Returned []
  | _ :: _ => remote e t order
  end.


(** The members of a duplicate set at index 1 and above. *)
Definition removable (s : list FileRecord) : list FileRecord :=
  omap (λ jr, if bool_decide (1 ≤ jr.1) then Some jr.2 else None) (imap pair s).

(** The removable members of all sets, in the order of the sets. *)
Definition extras (sets : list (list FileRecord)) : list FileRecord :=
  sets ≫= removable.

(** The sum of the sizes of the removable members of all sets. *)
Definition reclaimable_bytes (sets : list (list FileRecord)) : Z :=
  foldr Z.add 0%Z (quotaBytesUsed <$> extras sets).

(** The records of a listing that carry a given fingerprint, in the order
    of the listing. *)
Definition bearing (fp : string) (files : list FileRecord) : list FileRecord :=
  filter (λ f, md5Checksum f = fp) files.

(** The distinct fingerprints carried by at least two records. *)
Definition shared_fingerprints (files : list FileRecord) : list string :=
  filter (λ fp, 2 ≤ length (bearing fp files)) (remove_dups (md5Checksum <$> files)).

Definition ceil_div (k c : nat) : nat := (k + c - 1) / c.

(** The batches of the remediation loop as a fold without effects: the
    requests are added one by one to the current batch, a batch that reaches
    [ceiling] is sealed, and the batch left at the end closes the list. *)
Fixpoint seal (ceiling : nat) (batch : list request) (reqs : list request)
  : list (list request) :=
  match reqs with
  | [] => [batch]
  | r :: reqs' =>
      let batch := batch ++ [r] in
      if length batch =? ceiling then batch :: seal ceiling [] reqs'
      else seal ceiling batch reqs'
  end.

(** The batches of a list handed to [execute] one after the other. *)
Definition execute_all (batches : list (list request)) : io () :=
  for_each batches (λ _ batch, execute batch) ().

(** The trash requests of the removable members, in order. *)
Definition trash_requests (sets : list (list FileRecord)) : list request :=
  (λ dupe, Trash (id dupe)) <$> extras sets.

(** The lines of the report: every set after a separator. *)
Definition report_lines (sets : list (list FileRecord)) : trace :=
  sets ≫= λ dupeset,
    Print "--" ::
    ((λ dupe, Print (alternateLink dupe +:+ " " +:+ title dupe)) <$> dupeset).

Definition prompt : string := "Great. Now trash the extras? (y/n) ".

(** What a run shows up to and including the prompt, when there are
    duplicate sets. *)
Definition preamble (sets : list (list FileRecord)) : trace :=
  [Print (pretty (length sets) +:+ " duplicates found. ");
   Print "Please check them."]
  ++ report_lines sets
  ++ [Print "--"; PrintWasted (Qmake (reclaimable_bytes sets) ONE_GIG);
      RawInput prompt].

(** The events that are printed lines, and those that are prompts. *)
Definition is_print (ev : event) : Prop :=
  match ev with Print _ => True | _ => False end.

Definition is_input (ev : event) : Prop :=
  match ev with RawInput _ => True | _ => False end.

(** The answers the service gave to the batch calls of a trace that reached
    it, replayed from the events before each call. *)
Fixpoint answers (e : env) (past rest : trace) : list response :=
  match rest with
  | [] => []
  | Execute [] :: rest' => answers e (past ++ [Execute []]) rest'
  | Execute order :: rest' =>
      remote e past order :: answers e (past ++ [Execute order]) rest'
  | ev :: rest' => answers e (past ++ [ev]) rest'
  end.

(** The number of sub-operations the service reported as failed. *)
Definition failures (e : env) (t : trace) : nat :=
  length (filter (λ ok, ok = false)
    (answers e [] t ≫= λ r, match r with Returned oks => oks | Raised => [] end)).

(** ** Sample listings and services *)

Definition record (i fp : string) (size : Z) : FileRecord :=
  {| id := i; md5Checksum := fp; title := "file " +:+ i;
     alternateLink := "https://drive.example/" +:+ i; quotaBytesUsed := size |}.

(** Scenario A of the specification. *)
Definition scenario_A : list FileRecord :=
  [record "1" "x" 10; record "2" "x" 20; record "3" "y" 5].

Definition sets_A : list (list FileRecord) :=
  [[record "1" "x" 10; record "2" "x" 20]].

(** Scenario B: no fingerprint is shared. *)
Definition scenario_B : list FileRecord :=
  [record "1" "x" 10; record "2" "y" 20; record "3" "z" 5].

(** One duplicate set of [n + 1] records, so [n] removable ones. *)
Definition one_set (n : nat) : list (list FileRecord) :=
  [(λ i, record (pretty i) "x" 1) <$> seq 0 (S n)].

(** A service on which every sub-operation succeeds, and one on which the
    sub-operations on a given file fail (the others succeed). *)
Definition all_fine (line : string) : env :=
  {| remote := λ _ order, Returned ((λ _, true) <$> order); reply := line |}.

Definition failing_on (fid : string) (line : string) : env :=
  {| remote := λ _ order,
       Returned ((λ r, bool_decide (r ≠ Trash fid)) <$> order);
     reply := line |}.

(** A service whose every batch call fails as a whole. *)
Definition unreachable (line : string) : env :=
  {| remote := λ _ _, Raised; reply := line |}.


(** ** Vocabulary for the date fixer *)

Module Dates.

Section dates.

Variable strptime : string → string → option DateFix.datetime.
Variable isoformat : DateFix.datetime → string → string.

(** The capture date of an item: its EXIF date parsed, when the item has a
    non-empty one and it parses. *)
Definition capture_date (f : DateFix.fmeta) : option DateFix.datetime :=
  match DateFix.exif_date f with
  | None | Some "" => None
  | Some timestamp => DateFix.parseDate strptime timestamp
  end.

(** The modification date of the item is its capture date, formatted. *)
Definition up_to_date (f : DateFix.fmeta) : Prop :=
  ∃ d, capture_date f = Some d
       ∧ DateFix.formatDate isoformat d = DateFix.modifiedDate f.

(** The request a pass makes for an item, if any. *)
Definition patch_for (f : DateFix.fmeta) : option request :=
  match capture_date f with
  | None => None
  | Some d =>
      if bool_decide (DateFix.formatDate isoformat d = DateFix.modifiedDate f)
      then None
      else Some (Patch (DateFix.id f) (DateFix.formatDate isoformat d))
  end.

(** The requests a pass makes for the items of a list. *)
Definition patches (items : list DateFix.fmeta) : list request :=
  omap patch_for items.

(** [f'] is what the listing shows of the item [f] once the requests of the
    trace [pass] have all taken effect: the same item, with the
    modification date a patch request of the pass gave it, or its former
    date when the pass had no request for it. *)
Definition refreshed (pass : trace) (f f' : DateFix.fmeta) : Prop :=
  DateFix.id f' = DateFix.id f
  ∧ DateFix.imageMediaMetadata f' = DateFix.imageMediaMetadata f
  ∧ (∀ date, Patch (DateFix.id f) date ∈ concat (executed pass) →
             DateFix.modifiedDate f' = date)
  ∧ ((∀ date, Patch (DateFix.id f) date ∉ concat (executed pass)) →
     DateFix.modifiedDate f' = DateFix.modifiedDate f).

End dates.

End Dates.

(** ** Sample dates *)

Definition digit (c : Ascii.ascii) : option nat :=
  let n := Ascii.nat_of_ascii c in
  if (48 <=? n) && (n <=? 57) then Some (n - 48) else None.

Definition two_digits (a b : Ascii.ascii) : option nat :=
  x ← digit a; y ← digit b; Some (10 * x + y).

Definition is_char (n : nat) (c : Ascii.ascii) : bool := Ascii.nat_of_ascii c =? n.

(** A parser for timestamps of the fixed-width form [YYYY:MM:DD HH:MM:SS]
    only, with the fields in their ranges (days up to 31 in every month).
    The library's [strptime] accepts more; the sample serves the examples. *)
Definition strptime_fixed (timestamp format : string) : option DateFix.datetime :=
  match String.list_ascii_of_string timestamp with
  | [y1; y2; y3; y4; c1; m1; m2; c2; d1; d2; sp; h1; h2; c3; n1; n2; c4; s1; s2] =>
      if forallb (is_char 58) [c1; c2; c3; c4] && is_char 32 sp then
        yh ← two_digits y1 y2; yl ← two_digits y3 y4;
        mo ← two_digits m1 m2; da ← two_digits d1 d2;
        ho ← two_digits h1 h2; mi ← two_digits n1 n2; se ← two_digits s1 s2;
        let ye := 100 * yh + yl in
        if (1 <=? ye) && (1 <=? mo) && (mo <=? 12) && (1 <=? da) && (da <=? 31)
           && (ho <=? 23) && (mi <=? 59) && (se <=? 59)
        then Some {| DateFix.year := ye; DateFix.month := mo; DateFix.day := da;
                     DateFix.hour := ho; DateFix.minute := mi; DateFix.second := se |}
        else None
      else None
  | _ => None
  end.

Definition pad (width : nat) (n : nat) : string :=
  let s := pretty n in
  String.string_of_list_ascii (replicate (width - String.length s) (Ascii.ascii_of_nat 48))
  +:+ s.

(** [isoformat] of a [datetime] without microseconds. *)
Definition isoformat_padded (d : DateFix.datetime) (sep : string) : string :=
  pad 4 (DateFix.year d) +:+ "-" +:+ pad 2 (DateFix.month d) +:+ "-"
  +:+ pad 2 (DateFix.day d) +:+ sep +:+ pad 2 (DateFix.hour d) +:+ ":"
  +:+ pad 2 (DateFix.minute d) +:+ ":" +:+ pad 2 (DateFix.second d).

(** An image taken on the 4th of June 2012 at noon, with a given id and
    modification date. *)
Definition photo (i modified : string) : DateFix.fmeta :=
  {| DateFix.id := i;
     DateFix.imageMediaMetadata := Some {[ "date" := "2012:06:04 12:00:00" ]};
     DateFix.modifiedDate := modified |}.

(** An image without metadata. *)
Definition bare (i modified : string) : DateFix.fmeta :=
  {| DateFix.id := i; DateFix.imageMediaMetadata := None;
     DateFix.modifiedDate := modified |}.

(** An album before a pass, and the same album once the pass has taken
    effect. *)
Definition album_before : list DateFix.fmeta :=
  [photo "a" "2010-01-01T00:00:00.000Z"; bare "b" "2011-02-03T04:05:06.000Z"].

Definition album_after : list DateFix.fmeta :=
  [photo "a" "2012-06-04T12:00:00.0Z"; bare "b" "2011-02-03T04:05:06.000Z"].

(** The album once the pass has taken effect, as a service lists it that
    writes every date with milliseconds, as the dates of [album_before]
    are written. *)
Definition album_relisted : list DateFix.fmeta :=
  [photo "a" "2012-06-04T12:00:00.000Z"; bare "b" "2011-02-03T04:05:06.000Z"].

(** ** The listing loops of the two scripts *)

Module Listing.

(** One answer of [client.files().list(..).execute()]: the token of the
    next page, when there is one, and the items, when the answer has the
    key. *)
Record page (Item : Type) := {
  nextPageToken : option string;
  items : option (list Item)
}.

Arguments nextPageToken {Item} _.
Arguments items {Item} _.

(** What a listing loop does for the outside: list calls, each with its
    page token, and progress lines. *)
Inductive fetch_event :=
| ListCall (pageToken : option string)
| Progress (line : string).

(** How a loop ends: it returns, an exception leaves it (the list call
    raises, or the answer has no [items]), or the steps allowed to the model
    are used up while the service still announces pages. *)
Inductive outcome (A : Type) :=
| Done (x : A)
| Failed
| Unfinished.

Arguments Done {A} _.
Arguments Failed {A}.
Arguments Unfinished {A}.

Section loop.

Context {Item R : Type}.

(** The service: its answer to the list call number [calls] (from 0), made
    with a page token; [None] when the call raises. *)
Variable drive : nat → option string → option (page Item).

(** What the loop adds to [results] for the items of one page. *)
Variable keep : list Item → list R.

(** The [while not ended] loop of [fetch_all_metadata], one iteration per
    unit of [fuel]. *)
Fixpoint fetch_loop (fuel calls : nat) (page : option string)
    (results : list R) (log : list fetch_event)
  : outcome (list R) * list fetch_event :=
  match fuel with
  | 0 => (Unfinished, log)
  | S fuel' =>
      let log := log ++ [ListCall page] in
      match drive calls page with
      | None => (Failed, log)
      | Some resp =>
          let page := nextPageToken resp in
          match items resp with
          | None => (Failed, log)
          | Some its =>
              let results := results ++ keep its in
              let log := log ++ [Progress ("Fetched: " +:+ pretty (length results))] in
              match page with
              | None => (Done results, log)
              | Some _ => fetch_loop fuel' (S calls) page results log
              end
          end
      end
  end.

Definition fetch_pages (fuel : nat) : outcome (list R) * list fetch_event :=
  fetch_loop fuel 0 None [] [].

End loop.

End Listing.

Module DedupListing.

(** An item as the listing of the duplicate remover returns it: the
    checksum may be missing. *)
Record Item := {
  id : string;
  md5Checksum : option string;
  title : string;
  alternateLink : string;
  quotaBytesUsed : Z
}.

(** The item as a record of the index, when it has a checksum. *)
Definition as_record (item : Item) : option FileRecord :=
  md5 ← md5Checksum item;
  Some {| Dedup.id := id item; Dedup.md5Checksum := md5;
          Dedup.title := title item; Dedup.alternateLink := alternateLink item;
          Dedup.quotaBytesUsed := quotaBytesUsed item |}.

(** [fetch_all_metadata] of dedup.py: an item is appended when
    ['md5Checksum' in item]. *)
Definition fetch_all_metadata (drive : nat → option string → option (Listing.page Item))
    (fuel : nat) : Listing.outcome (list FileRecord) * list Listing.fetch_event :=
  Listing.fetch_pages drive (omap as_record) fuel.

End DedupListing.

Module DateFixListing.

(** [fetch_all_metadata] of datefix.py: [results.extend(resp['items'])]. *)
Definition fetch_all_metadata
    (drive : nat → option string → option (Listing.page DateFix.fmeta))
    (fuel : nat) : Listing.outcome (list DateFix.fmeta) * list Listing.fetch_event :=
  Listing.fetch_pages drive (λ its, its) fuel.

End DateFixListing.

(** ** Vocabulary for the listing loops *)

(** The service answers, from the call number [calls] and the token [tok]
    on, with the pages of a list one after the other, each announcing the
    next one, and the last one announcing none. *)
Fixpoint serves {Item : Type} (drive : nat → option string → option (Listing.page Item))
    (calls : nat) (tok : option string) (pages : list (Listing.page Item)) : Prop :=
  match pages with
  | [] => False
  | p :: rest =>
      drive calls tok = Some p
      ∧ match rest with
        | [] => Listing.nextPageToken p = None
        | _ => is_Some (Listing.nextPageToken p)
               ∧ serves drive (S calls) (Listing.nextPageToken p) rest
        end
  end.

(** The service answers, from the call number [calls] and the token [tok]
    on, with the pages of a list, each with items and announcing a next
    page. *)
Fixpoint announces {Item : Type} (drive : nat → option string → option (Listing.page Item))
    (calls : nat) (tok : option string) (pages : list (Listing.page Item)) : Prop :=
  match pages with
  | [] => True
  | p :: rest =>
      drive calls tok = Some p
      ∧ is_Some (Listing.items p)
      ∧ is_Some (Listing.nextPageToken p)
      ∧ announces drive (S calls) (Listing.nextPageToken p) rest
  end.

(** The token in hand after the pages of a list. *)
Definition token_after {Item : Type} (tok : option string)
    (pages : list (Listing.page Item)) : option string :=
  foldl (λ _ p, Listing.nextPageToken p) tok pages.

(** What a loop keeps of the pages of a list. *)
Definition kept {Item R : Type} (keep : list Item → list R)
    (pages : list (Listing.page Item)) : list R :=
  pages ≫= λ p, keep (default [] (Listing.items p)).

(** The page tokens of the list calls of a log. *)
Definition list_calls (log : list Listing.fetch_event) : list (option string) :=
  omap (λ ev, match ev with Listing.ListCall t => Some t | _ => None end) log.

(** The items of a list of pages, page after page; a page without the key
    has none. *)
Definition page_items {Item : Type} (pages : list (Listing.page Item)) : list Item :=
  pages ≫= λ p, default [] (Listing.items p).

(** The log of a loop over pages that all have items: for each page the
    list call and the progress line with the number of results so far. *)
Fixpoint log_of {Item R : Type} (keep : list Item → list R)
    (tok : option string) (count : nat) (pages : list (Listing.page Item))
  : list Listing.fetch_event :=
  match pages with
  | [] => []
  | p :: rest =>
      let count := count + length (keep (default [] (Listing.items p))) in
      Listing.ListCall tok
      :: Listing.Progress ("Fetched: " +:+ pretty count)
      :: log_of keep (Listing.nextPageToken p) count rest
  end.

#[global] Instance FileRecord_eq_dec : EqDecision FileRecord.
Proof. solve_decision. Defined.

(** What a listing made with [q='trashed=false'] shows of the records of a
    former listing once the trash requests of a run have taken effect. *)
Definition remaining (run : trace) (files : list FileRecord) : list FileRecord :=
  filter (λ f, Trash (id f) ∉ concat (executed run)) files.

(** The records of a listing whose fingerprint at least two records carry. *)
Definition shared (files : list FileRecord) : list FileRecord :=
  filter (λ f, 2 ≤ length (bearing (md5Checksum f) files)) files.

(** The texts of the prompts shown in a trace. *)
Definition prompts (t : trace) : list string :=
  omap (λ ev, match ev with RawInput p => Some p | _ => None end) t.

(** ** Sample pages *)

Definition item (i : string) (md5 : option string) : DedupListing.Item :=
  {| DedupListing.id := i; DedupListing.md5Checksum := md5;
     DedupListing.title := "file " +:+ i;
     DedupListing.alternateLink := "https://drive.example/" +:+ i;
     DedupListing.quotaBytesUsed := 1 |}.

Definition two_pages : list (Listing.page DedupListing.Item) :=
  [ {| Listing.nextPageToken := Some "p2";
       Listing.items := Some [item "1" (Some "x"); item "2" None] |};
    {| Listing.nextPageToken := None;
       Listing.items := Some [item "3" (Some "x")] |} ].

(** A service with the pages of a list, one per call, whatever the token. *)
Definition paged {Item : Type} (pages : list (Listing.page Item))
  : nat → option string → option (Listing.page Item) :=
  λ calls _, pages !! calls.

(** A service that announces a next page for ever. *)
Definition endless : nat → option string → option (Listing.page DedupListing.Item) :=
  λ _ _, Some {| Listing.nextPageToken := Some "more"; Listing.items := Some [] |}.

(** ** The duplicate indexer *)

Section indexer.

Implicit Types (files : list FileRecord) (fp : string).

Lemma bearing_snoc fp files f :
  bearing fp (files ++ [f]) =
  bearing fp files ++ (if decide (md5Checksum f = fp) then [f] else []).
Proof.
  unfold bearing. rewrite filter_app. f_equal.
Qed.

(** The index maps a fingerprint to the records that bear it, in the order
    of the listing, and has no entry for a fingerprint nobody bears. *)
Lemma build_index_lookup files fp :
  build_index files !! fp =
  match bearing fp files with [] => None | l => Some l end.
Proof.
  induction files as [|f files IH] using rev_ind; [done|].
  unfold build_index in *. rewrite foldl_snoc. unfold index_append at 1.
  rewrite bearing_snoc, lookup_insert.
  destruct (decide (md5Checksum f = fp)) as [->|_].
  - rewrite IH. destruct (bearing fp files); done.

  - rewrite IH, app_nil_r. done.
Qed.

Lemma build_index_Some files fp l :
  build_index files !! fp = Some l ↔ l = bearing fp files ∧ l ≠ [].
Proof.
  rewrite build_index_lookup. destruct (bearing fp files) as [|f b].
  - split; [done|]. intros [-> ?]. done.
  - split; [intros [= <-]; done|]. intros [-> _]. done.
Qed.

Lemma elem_of_find_dupes files s :
  s ∈ find_dupes files ↔ ∃ fp, s = bearing fp files ∧ 2 ≤ length s.
Proof.
  unfold find_dupes. rewrite list_elem_of_filter, list_elem_of_fmap. split.
  - intros [Hlen [[fp l] [-> Hin]]]. apply elem_of_map_to_list in Hin.
    apply build_index_Some in Hin as [-> _]. exists fp. simpl in *. split; [done|lia].
  - intros [fp [-> Hlen]]. split; [lia|]. exists (fp, bearing fp files).
    split; [done|]. apply elem_of_map_to_list, build_index_Some.
    split; [done|]. intros E. rewrite E in Hlen. simpl in Hlen. lia.
Qed.

Lemma find_dupes_keys files :
  length (find_dupes files) =
  length (filter (λ kv, 1 < length kv.2) (map_to_list (build_index files))).
Proof.
  unfold find_dupes. generalize (map_to_list (build_index files)).
  intros L. induction L as [|[k v] L IH]; [done|].
  rewrite fmap_cons, !filter_cons. simpl.
  destruct (decide (1 < length v)); simpl; rewrite IH; done.
Qed.

Lemma find_dupes_count files :
  length (find_dupes files) = length (shared_fingerprints files).
Proof.
  rewrite find_dupes_keys.
  rewrite <-(length_fmap fst).
  apply Permutation_length, NoDup_Permutation.
  - apply NoDup_fmap_fst.
    + intros k v1 v2 H1 H2.
      apply list_elem_of_filter in H1 as [_ H1], H2 as [_ H2].
      apply elem_of_map_to_list in H1, H2. congruence.
    + apply NoDup_filter, NoDup_map_to_list.
  - apply NoDup_filter, NoDup_remove_dups.
  - intros fp. unfold shared_fingerprints.
    rewrite list_elem_of_fmap, list_elem_of_filter, elem_of_remove_dups. split.
    + intros [[k v] [-> Hin]]. apply list_elem_of_filter in Hin as [Hlen Hin].
      apply elem_of_map_to_list, build_index_Some in Hin as [-> Hne].
      simpl in *. split; [lia|].
      destruct (bearing k files) as [|f l] eqn:E; [done|].
      assert (f ∈ bearing k files) as Hf by (rewrite E; left).
      apply list_elem_of_filter in Hf as [<- Hf]. by apply list_elem_of_fmap_2.
    + intros [Hlen _]. exists (fp, bearing fp files). split; [done|].
      apply list_elem_of_filter. split; [simpl; lia|].
      apply elem_of_map_to_list, build_index_Some. split; [done|].
      intros E. rewrite E in Hlen. simpl in Hlen. lia.
Qed.

Lemma find_dupes_NoDup files : NoDup (find_dupes files).
Proof.
  unfold find_dupes. apply NoDup_filter.
  apply NoDup_fmap_2_strong; [|apply NoDup_map_to_list].
  intros [k1 v1] [k2 v2] H1 H2 Heq. simpl in Heq. subst v2.
  apply elem_of_map_to_list, build_index_Some in H1 as [E1 Hne].
  apply elem_of_map_to_list, build_index_Some in H2 as [E2 _].
  f_equal. destruct v1 as [|f l]; [done|].
  assert (f ∈ bearing k1 files) as F1 by (rewrite <-E1; left).
  assert (f ∈ bearing k2 files) as F2 by (rewrite <-E2; left).
  apply list_elem_of_filter in F1 as [<- _], F2 as [<- _]. done.
Qed.

(** C5. For every listing, [find_dupes] returns one set per distinct
    fingerprint carried by at least two records: the sets are pairwise
    different and as many as those fingerprints; a list is one of the sets
    exactly when it is made of all the records bearing some fingerprint, in
    the order of the listing, and has at least two members; and a record
    whose fingerprint no other record carries is in none of the sets. *)
Theorem find_dupes_groups_by_fingerprint files :
  length (find_dupes files) = length (shared_fingerprints files)
  ∧ NoDup (find_dupes files)
  ∧ (∀ s, s ∈ find_dupes files ↔
          ∃ fp, s = bearing fp files ∧ 2 ≤ length (bearing fp files))
  ∧ (∀ fp, 2 ≤ length (bearing fp files) → bearing fp files ∈ find_dupes files)
  ∧ (∀ f s, length (bearing (md5Checksum f) files) ≤ 1 →
            s ∈ find_dupes files → f ∉ s).
Proof.
  split; [apply find_dupes_count|]. split; [apply find_dupes_NoDup|].
  split; [|split].
  - intros s. rewrite elem_of_find_dupes.
    split; intros [fp [-> Hlen]]; exists fp; done.
  - intros fp Hlen. apply elem_of_find_dupes. eauto.
  - intros f s Huniq Hs Hf. apply elem_of_find_dupes in Hs as [fp [-> Hlen]].
    apply list_elem_of_filter in Hf as [Hfp _]. subst fp. lia.
Qed.

End indexer.

Lemma find_dupes_groups_by_fingerprint_witness :
  2 ≤ length (bearing "x" scenario_A)
  ∧ bearing "x" scenario_A ∈ find_dupes scenario_A.
Proof.
  assert (2 ≤ length (bearing "x" scenario_A)) as Hshared by (vm_compute; lia).
  split; [exact Hshared|].
  destruct (find_dupes_groups_by_fingerprint scenario_A) as (_ & _ & _ & Hall & _).
  apply Hall, Hshared.
Defined.

(** ** Running computations *)

Lemma run_bind {A B : Type} (m : io A) (f : A → io B) e t :
  (m ≫= f) e t =
  match m e t with (Some x, t') => f x e t' | (None, t') => (None, t') end.
Proof. reflexivity. Qed.

Lemma run_ret {A : Type} (x : A) e t : (mret x : io A) e t = (Some x, t).
Proof. reflexivity. Qed.

Lemma for_each_app {A S : Type} (l1 l2 : list A) (body : S → A → io S) s e t :
  for_each (l1 ++ l2) body s e t =
  (for_each l1 body s ≫= for_each l2 body) e t.
Proof.
  revert s t. induction l1 as [|x l1 IH]; intros s t; simpl.
  - done.
  - rewrite !run_bind. destruct (body s x e t) as [[s'|] t']; [|done].
    rewrite IH. done.
Qed.

Lemma run_execute order e t :
  execute order e t =
  (match answer e t order with Raised => None | Returned _ => Some () end,
   t ++ [Execute order]).
Proof.
  unfold execute, answer. destruct order as [|r order]; [done|].
  destruct (remote e t (r :: order)); done.
Qed.

Lemma answer_returns e t order : always_returns e → answer e t order ≠ Raised.
Proof. intros He. destruct order as [|r order]; [done|]. apply He. Qed.

Lemma answer_remote e t order : order ≠ [] → answer e t order = remote e t order.
Proof. by destruct order. Qed.

Lemma execute_all_cons batch batches e t :
  execute_all (batch :: batches) e t =
  match answer e t batch with
  | Raised => (None, t ++ [Execute batch])
  | Returned _ => execute_all batches e (t ++ [Execute batch])
  end.
Proof.
  unfold execute_all. simpl. rewrite run_bind, run_execute.
  destruct (answer e t batch); done.
Qed.

(** A run of [execute_all] hands over a prefix of the batches: all of them
    when every call returns, and at least the first one. *)
Lemma execute_all_trace batches e t :
  ∃ n, n ≤ length batches ∧ (batches ≠ [] → 1 ≤ n)
       ∧ (execute_all batches e t).2 = t ++ (Execute <$> take n batches)
       ∧ ((execute_all batches e t).1 = Some () → n = length batches).
Proof.
  revert t. induction batches as [|b bs IH]; intros t.
  - exists 0. simpl. rewrite app_nil_r. done.
  - rewrite execute_all_cons. destruct (answer e t b).
    + exists 1. simpl. split; [lia|]. done.
    + destruct (IH (t ++ [Execute b])) as (n & Hn & _ & Htr & Hres).
      exists (S n). simpl. rewrite Htr, <-app_assoc. simpl.
      split; [lia|]. split; [lia|]. split; [done|]. intros H. rewrite Hres; done.
Qed.

Lemma execute_all_returns batches e t :
  always_returns e →
  execute_all batches e t = (Some (), t ++ (Execute <$> batches)).
Proof.
  intros He. revert t. induction batches as [|b bs IH]; intros t.
  - simpl. rewrite app_nil_r. done.
  - rewrite execute_all_cons. destruct (answer e t b) eqn:E.
    + by apply answer_returns in E.
    + rewrite IH, <-app_assoc. done.
Qed.

(** ** Removable members *)

Lemma removable_shifted (s : list FileRecord) (h : nat → nat) :
  (∀ j, 1 ≤ h j) →
  omap (λ jr : nat * FileRecord, if bool_decide (1 ≤ jr.1) then Some jr.2 else None)
       (imap (λ j r, (h j, r)) s) = s.
Proof.
  revert h. induction s as [|r s IH]; intros h Hh; [done|].
  rewrite imap_cons. simpl. rewrite bool_decide_true by apply Hh.
  f_equal. apply (IH (h ∘ S)). intros j. apply Hh.
Qed.

(** The members at index 1 and above are the slice [dupeset[1:]]. *)
Lemma removable_drop s : removable s = drop 1 s.
Proof.
  destruct s as [|r s]; [done|]. unfold removable.
  rewrite imap_cons. simpl. rewrite drop_0.
  apply (removable_shifted s S). lia.
Qed.

Lemma removable_lookup s r :
  r ∈ removable s ↔ ∃ j, 1 ≤ j ∧ s !! j = Some r.
Proof.
  rewrite removable_drop, list_elem_of_lookup. split.
  - intros [i Hi]. rewrite lookup_drop in Hi. exists (1 + i). split; [lia|done].
  - intros [j [Hj Hr]]. exists (j - 1). rewrite lookup_drop.
    replace (1 + (j - 1)) with j by lia. done.
Qed.

Lemma extras_cons s sets : extras (s :: sets) = drop 1 s ++ extras sets.
Proof. unfold extras. simpl. rewrite removable_drop. done. Qed.

(** ** The sealed batches *)

Section sealing.

Variable ceiling : nat.
Hypothesis ceiling_pos : 1 ≤ ceiling.

Implicit Types (batch reqs : list request).

Lemma seal_concat batch reqs : concat (seal ceiling batch reqs) = batch ++ reqs.
Proof.
  revert batch. induction reqs as [|r reqs IH]; intros batch; simpl.
  - by rewrite !app_nil_r.
  - destruct (length (batch ++ [r]) =? ceiling); simpl; rewrite IH;
      rewrite <-?app_assoc; done.
Qed.

(** The sealed batches are full ones followed by the batch left over, which
    is not full. *)
Lemma seal_shape batch reqs :
  length batch < ceiling →
  ∃ full rest,
    seal ceiling batch reqs = full ++ [rest]
    ∧ Forall (λ b, length b = ceiling) full
    ∧ length rest < ceiling.
Proof.
  revert batch. induction reqs as [|r reqs IH]; intros batch Hlt; simpl.
  - exists [], batch. done.
  - destruct (Nat.eqb_spec (length (batch ++ [r])) ceiling) as [Heq|Hne].
    + destruct (IH []) as (full & rest & -> & Hfull & Hrest); [simpl; lia|].
      exists ((batch ++ [r]) :: full), rest. split; [done|].
      split; [by constructor|done].
    + apply IH. rewrite length_app in *. simpl in *. lia.
Qed.

Lemma seal_count batch reqs full rest :
  seal ceiling batch reqs = full ++ [rest] →
  Forall (λ b, length b = ceiling) full →
  length rest < ceiling →
  length full = (length batch + length reqs) / ceiling
  ∧ length rest = (length batch + length reqs) mod ceiling.
Proof.
  intros Hseal Hfull Hrest.
  assert (length (concat (seal ceiling batch reqs)) = length batch + length reqs)
    as Hsum by (rewrite seal_concat, length_app; done).
  rewrite Hseal, concat_app, length_app in Hsum. simpl in Hsum.
  rewrite app_nil_r in Hsum.
  assert (length (concat full) = length full * ceiling) as Hc.
  { clear -Hfull. induction Hfull as [|b full Hb _ IH]; [done|].
    simpl. rewrite length_app, IH, Hb. done. }
  rewrite Hc in Hsum.
  apply (Nat.div_mod_unique ceiling); [done| |].
  - apply Nat.mod_upper_bound. lia.
  - rewrite <-Nat.div_mod_eq. lia.
Qed.

Lemma seal_bounded batch reqs :
  length batch < ceiling →
  Forall (λ b, length b ≤ ceiling) (seal ceiling batch reqs).
Proof.
  intros Hlt. destruct (seal_shape batch reqs Hlt) as (full & rest & -> & Hf & Hr).
  apply Forall_app. split.
  - eapply Forall_impl; [done|]. simpl. lia.
  - constructor; [lia|constructor].
Qed.

Lemma seal_length batch reqs :
  length batch < ceiling →
  length (seal ceiling batch reqs) = (length batch + length reqs) / ceiling + 1.
Proof.
  intros Hlt. destruct (seal_shape batch reqs Hlt) as (full & rest & E & Hf & Hr).
  destruct (seal_count _ _ _ _ E Hf Hr) as [<- _].
  rewrite E, length_app. done.
Qed.




End sealing.

(** ** The remediation loop *)

Lemma seal_cons ceiling batch r reqs :
  seal ceiling batch (r :: reqs) =
  if length (batch ++ [r]) =? ceiling
  then (batch ++ [r]) :: seal ceiling [] reqs
  else seal ceiling (batch ++ [r]) reqs.
Proof. reflexivity. Qed.

Lemma add_to_batch_run batch dupe e t :
  add_to_batch batch dupe e t =
  if length (batch ++ [Trash (id dupe)]) =? 1000
  then (match answer e t (batch ++ [Trash (id dupe)]) with
        | Raised => None
        | Returned _ => Some []
        end, t ++ [Execute (batch ++ [Trash (id dupe)])])
  else (Some (batch ++ [Trash (id dupe)]), t).
Proof.
  unfold add_to_batch. cbv zeta.
  destruct (length (batch ++ [Trash (id dupe)]) =? 1000); [|done].
  rewrite run_bind, run_execute.
  destruct (answer e t (batch ++ [Trash (id dupe)])); done.
Qed.

(** The two nested loops visit the removable members of all sets in order. *)
Lemma trash_loop_flat dupes batch e t :
  for_each dupes (λ batch dupeset,
    for_each (drop 1 dupeset) add_to_batch batch) batch e t
  = for_each (extras dupes) add_to_batch batch e t.
Proof.
  revert batch t. induction dupes as [|s dupes IH]; intros batch t; [done|].
  rewrite extras_cons, for_each_app. simpl. rewrite !run_bind.
  destruct (for_each (drop 1 s) add_to_batch batch e t) as [[b|] t']; [|done].
  apply IH.
Qed.

Lemma trash_loop_seal members batch e t :
  (for_each members add_to_batch batch ≫= execute) e t
  = execute_all (seal 1000 batch ((λ dupe, Trash (id dupe)) <$> members)) e t.
Proof.
  revert batch t. induction members as [|m members IH]; intros batch t.
  - simpl. rewrite execute_all_cons, run_bind, run_ret, run_execute.
    destruct (answer e t batch); done.
  - rewrite fmap_cons, seal_cons. specialize (IH (batch ++ [Trash (id m)])) as IH1.
    specialize (IH []) as IH0.
    rewrite run_bind in *. simpl for_each. rewrite run_bind, add_to_batch_run.
    destruct (length (batch ++ [Trash (id m)]) =? 1000).
    + rewrite execute_all_cons.
      destruct (answer e t (batch ++ [Trash (id m)])); [done|]. apply IH0.
    + apply IH1.
Qed.

(** The remediation loop hands to [execute], one after the other and as long
    as the calls return, the sealed batches of the trash requests. *)
Lemma trash_extras_seal dupes e t :
  trash_extras dupes e t = execute_all (seal 1000 [] (trash_requests dupes)) e t.
Proof.
  unfold trash_extras, trash_requests. rewrite <-trash_loop_seal, !run_bind.
  rewrite trash_loop_flat. done.
Qed.

(** ** The report *)

Lemma print_lines_run (s : list FileRecord) e t :
  for_each s (λ _ dupe, print (alternateLink dupe +:+ " " +:+ title dupe)) () e t
  = (Some (), t ++ ((λ dupe, Print (alternateLink dupe +:+ " " +:+ title dupe)) <$> s)).
Proof.
  revert t. induction s as [|r s IH]; intros t; simpl.
  - by rewrite app_nil_r.
  - rewrite run_bind. unfold print at 1, emit. rewrite IH, <-app_assoc. done.
Qed.

Lemma sum_sizes_run (s : list FileRecord) (total : Z) e t :
  for_each s (λ total dupe, mret (total + quotaBytesUsed dupe)%Z) total e t
  = (Some (total + foldr Z.add 0 (quotaBytesUsed <$> s))%Z, t).
Proof.
  revert total. induction s as [|r s IH]; intros total; simpl.
  - rewrite Z.add_0_r. done.
  - rewrite run_bind, run_ret, IH, Z.add_assoc. done.
Qed.

Lemma report_loop_run dupes (total : Z) e t :
  for_each dupes (λ total dupeset,
    print "--";;
    for_each dupeset (λ _ dupe,
      print (alternateLink dupe +:+ " " +:+ title dupe)) ();;
    for_each (drop 1 dupeset) (λ total dupe,
      mret (total + quotaBytesUsed dupe)%Z) total) total e t
  = (Some (total + reclaimable_bytes dupes)%Z, t ++ report_lines dupes).
Proof.
  revert total t. induction dupes as [|s dupes IH]; intros total t.
  - simpl. unfold reclaimable_bytes. simpl. rewrite Z.add_0_r, app_nil_r. done.
  - simpl for_each. rewrite run_bind. rewrite run_bind. unfold print at 1, emit.
    rewrite run_bind, print_lines_run, sum_sizes_run, IH.
    unfold reclaimable_bytes. rewrite extras_cons, fmap_app, foldr_app.
    f_equal.
    + f_equal. generalize (foldr Z.add 0%Z (quotaBytesUsed <$> extras dupes)).
      generalize (quotaBytesUsed <$> drop 1 s). intros l z.
      induction l as [|x l IHl]; simpl; lia.
    + unfold report_lines. simpl. rewrite <-!app_assoc. done.
Qed.

Lemma report_sets_run dupes e t :
  report_sets dupes e t = (Some (reclaimable_bytes dupes), t ++ report_lines dupes).
Proof. unfold report_sets. rewrite report_loop_run. done. Qed.

(** ** Runs of [main] *)

Lemma main_from_empty e :
  main_from [] e [] =
  (Some (), [Print "0 duplicates found. "; Print "We are done."]).
Proof. reflexivity. Qed.

(** A run with duplicate sets: the preamble, then either the remediation
    loop between its two lines, the second of which is printed when the loop
    was not left by an exception, or the line of the refusal. *)
Lemma main_from_run dupes e :
  dupes ≠ [] →
  main_from dupes e [] =
  if bool_decide (strip (reply e) = "y") then
    match execute_all (seal 1000 [] (trash_requests dupes)) e
            (preamble dupes ++ [Print "Trashing."]) with
    | (Some _, t) => (Some (), t ++ [Print "We are done. Check the trash for your files."])
    | (None, t) => (None, t)
    end
  else (Some (), preamble dupes ++ [Print "Not touching anything."]).
Proof.
  intros Hne. unfold main_from.
  replace (length dupes =? 0) with false
    by (destruct dupes; [done|reflexivity]).
  rewrite run_bind. unfold print at 1, emit at 1.
  rewrite run_bind. unfold print at 1, emit at 1.
  rewrite run_bind, report_sets_run.
  rewrite run_bind. unfold print at 1, emit at 1.
  rewrite run_bind. unfold emit at 1.
  rewrite run_bind. unfold raw_input at 1.
  assert (∀ l : trace,
    (((((([] ++ [Print (pretty (length dupes) +:+ " duplicates found. ")]) ++
         [Print "Please check them."]) ++ report_lines dupes) ++ [Print "--"]) ++
      [PrintWasted (Qmake (reclaimable_bytes dupes) ONE_GIG)]) ++
     [RawInput "Great. Now trash the extras? (y/n) "]) ++ l
    = preamble dupes ++ l) as Hpre.
  { intros l. unfold preamble, prompt. rewrite <-!app_assoc. done. }
  destruct (bool_decide (strip (reply e) = "y")).
  - rewrite run_bind. unfold print at 1, emit at 1.
    rewrite run_bind, trash_extras_seal, Hpre.
    destruct (execute_all _ e _) as [[[]|] t]; done.
  - unfold print, emit. rewrite Hpre. done.
Qed.

Lemma executed_app (t t' : trace) : executed (t ++ t') = executed t ++ executed t'.
Proof. apply omap_app. Qed.

Lemma executed_batches (batches : list (list request)) :
  executed (Execute <$> batches) = batches.
Proof.
  induction batches as [|b bs IH]; [done|].
  rewrite fmap_cons. change (executed (Execute b :: (Execute <$> bs)))
    with (b :: executed (Execute <$> bs)). by rewrite IH.
Qed.


Lemma all_fine_returns line : always_returns (all_fine line).
Proof. intros t order. done. Qed.

Lemma failing_on_returns fid line : always_returns (failing_on fid line).
Proof. intros t order. done. Qed.

(** ** Batch chunking *)







(** ** One request per removable member *)


Lemma elem_of_extras sets r :
  r ∈ extras sets ↔ ∃ s j, s ∈ sets ∧ 1 ≤ j ∧ s !! j = Some r.
Proof.
  unfold extras. rewrite list_elem_of_bind. split.
  - intros (s & Hr & Hs). apply removable_lookup in Hr as (j & Hj & Hr). eauto.
  - intros (s & j & Hs & Hj & Hr). exists s. split; [|done].
    apply removable_lookup. eauto.
Qed.





(** ** The shape of a run *)

Lemma report_lines_print sets : Forall is_print (report_lines sets).
Proof.
  unfold report_lines. induction sets as [|s sets IH]; [constructor|].
  simpl. constructor; [done|]. apply Forall_app. split; [|done].
  apply Forall_fmap, Forall_true. done.
Qed.

(** The sealed batches start with a batch that extends the current one. *)
Lemma seal_first ceiling batch reqs :
  ∃ more rest, seal ceiling batch reqs = (batch ++ more) :: rest.
Proof.
  revert batch. induction reqs as [|r reqs IH]; intros batch.
  - exists [], []. simpl. by rewrite app_nil_r.
  - rewrite seal_cons. destruct (length (batch ++ [r]) =? ceiling).
    + by exists [r], (seal ceiling [] reqs).
    + destruct (IH (batch ++ [r])) as (more & rest & ->).
      exists (r :: more), rest. by rewrite <-app_assoc.
Qed.

Lemma seal_not_nil ceiling batch reqs : seal ceiling batch reqs ≠ [].
Proof. destruct (seal_first ceiling batch reqs) as (? & ? & ->). done. Qed.

(** What follows the prompt in a run with duplicate sets: after a refusal
    one line; otherwise the remediation, of which at least the first sealed
    batch is handed over, between its two lines. *)
Lemma main_from_trace dupes e :
  dupes ≠ [] →
  ∃ after,
    (main_from dupes e []).2 = preamble dupes ++ after
    ∧ Forall (λ ev, ¬ is_input ev) after
    ∧ (strip (reply e) ≠ "y" →
         after = [Print "Not touching anything."]
         ∧ (main_from dupes e []).1 = Some ())
    ∧ (strip (reply e) = "y" →
         ∃ n tail,
           1 ≤ n ∧ Forall is_print tail
           ∧ after = [Print "Trashing."]
                     ++ (Execute <$> take n (seal 1000 [] (trash_requests dupes)))
                     ++ tail).
Proof.
  intros Hne. rewrite main_from_run by done.
  destruct (decide (strip (reply e) = "y")) as [Hy|Hn].
  - rewrite bool_decide_true by done.
    destruct (execute_all_trace (seal 1000 [] (trash_requests dupes)) e
                (preamble dupes ++ [Print "Trashing."]))
      as (n & _ & Hn1 & Htr & _).
    assert (1 ≤ n) as Hn by apply Hn1, seal_not_nil.
    destruct (execute_all _ e _) as [[[]|] t] eqn:E; simpl in Htr; subst t.
    + exists ([Print "Trashing."]
              ++ (Execute <$> take n (seal 1000 [] (trash_requests dupes)))
              ++ [Print "We are done. Check the trash for your files."]).
      split; [simpl; by rewrite <-!app_assoc|]. split; [|split; [done|]].
      * constructor; [by intros []|]. apply Forall_app. split.
        -- apply Forall_fmap, Forall_true. by intros ? [].
        -- constructor; [by intros []|constructor].
      * intros _. exists n, [Print "We are done. Check the trash for your files."].
        split; [done|]. split; [|done]. by repeat constructor.
    + exists ([Print "Trashing."]
              ++ (Execute <$> take n (seal 1000 [] (trash_requests dupes)))
              ++ []).
      split; [simpl; by rewrite app_nil_r, <-!app_assoc|].
      split; [|split; [done|]].
      * constructor; [by intros []|]. rewrite app_nil_r.
        apply Forall_fmap, Forall_true. by intros ? [].
      * intros _. exists n, []. done.
  - rewrite bool_decide_false by done.
    exists [Print "Not touching anything."]. simpl.
    split; [done|]. split; [|split; [done|done]].
    constructor; [by intros []|constructor].
Qed.

(** In a trace made of printed lines, an event [w], the prompt, and events
    that are no prompt, whatever is executed comes after the prompt, and the
    prompt right after [w]. *)
Lemma prompt_between (lines after : trace) (w : event) (p0 : string) :
  Forall is_print lines →
  Forall (λ ev, ¬ is_input ev) after →
  let tr := lines ++ [w; RawInput p0] ++ after in
  (∀ i order, tr !! i = Some (Execute order) →
      w = Execute order ∨ ∃ j, j < i ∧ tr !! j = Some (RawInput p0))
  ∧ (∀ j p, tr !! j = Some (RawInput p) →
      w = RawInput p ∨ ∃ h, h < j ∧ tr !! h = Some w).
Proof.
  intros Hlines Hafter tr. subst tr.
  assert ((lines ++ [w; RawInput p0] ++ after) !! length lines = Some w) as Hw.
  { rewrite lookup_app_r by lia. by rewrite Nat.sub_diag. }
  assert ((lines ++ [w; RawInput p0] ++ after) !! S (length lines)
          = Some (RawInput p0)) as Hp.
  { rewrite lookup_app_r by lia.
    by replace (S (length lines) - length lines) with 1 by lia. }
  split.
  - intros i order Hi. apply lookup_app_Some in Hi as [Hi|[Hge Hi]].
    + eapply Forall_lookup_1 in Hlines; [|done]. done.
    + destruct (i - length lines) as [|[|k]] eqn:Ek; simpl in Hi.
      * left. congruence.
      * done.
      * right. exists (S (length lines)). split; [lia|done].
  - intros j p Hj. apply lookup_app_Some in Hj as [Hj|[Hge Hj]].
    + eapply Forall_lookup_1 in Hlines; [|done]. done.
    + destruct (j - length lines) as [|[|k]] eqn:Ek; simpl in Hj.
      * left. congruence.
      * right. exists (length lines). split; [lia|done].
      * eapply Forall_lookup_1 in Hafter; [|done]. by destruct Hafter.
Qed.

Lemma preamble_split sets :
  ∃ lines,
    Forall is_print lines
    ∧ preamble sets
      = lines ++ [PrintWasted (Qmake (reclaimable_bytes sets) ONE_GIG);
                  RawInput prompt].
Proof.
  exists ([Print (pretty (length sets) +:+ " duplicates found. ");
           Print "Please check them."] ++ report_lines sets ++ [Print "--"]).
  split.
  - repeat (constructor; [done|]). apply Forall_app. split.
    + apply report_lines_print.
    + by repeat constructor.
  - unfold preamble. rewrite <-!app_assoc. done.
Qed.

(** ** Report before confirmation, confirmation before removal *)

(** C4. In every run, an [execute] event is preceded by the prompt, and the
    prompt by the line of the byte total, which carries the sum of the sizes
    of the removable members over the divisor [2^30]. *)
Theorem report_confirm_remove_order dupes e :
  let tr := (main_from dupes e []).2 in
  Zpos ONE_GIG = (2 ^ 30)%Z
  ∧ (∀ i order, tr !! i = Some (Execute order) →
       ∃ j, j < i ∧ tr !! j = Some (RawInput prompt))
  ∧ (∀ j p, tr !! j = Some (RawInput p) →
       ∃ h, h < j ∧
         tr !! h = Some (PrintWasted (Qmake (reclaimable_bytes dupes) ONE_GIG))).
Proof.
  intros tr. subst tr. split; [done|].
  destruct dupes as [|s dupes].
  - rewrite main_from_empty. simpl. split.
    + intros [|[|i]] order Hi; done.
    + intros [|[|j]] p Hj; done.
  - destruct (main_from_trace (s :: dupes) e) as (after & -> & Hafter & _);
      [done|].
    destruct (preamble_split (s :: dupes)) as (lines & Hlines & ->).
    rewrite <-app_assoc.
    destruct (prompt_between lines after
                (PrintWasted (Qmake (reclaimable_bytes (s :: dupes)) ONE_GIG))
                prompt Hlines Hafter) as [Hex Hin].
    split.
    + intros i order Hi. destruct (Hex i order Hi) as [?|?]; done.
    + intros j p Hj. destruct (Hin j p Hj) as [?|?]; done.
Qed.

Lemma report_confirm_remove_order_witness :
  (main_from sets_A (all_fine "y") []).2 !! 9 = Some (Execute [Trash "2"])
  ∧ ∃ j, j < 9
         ∧ (main_from sets_A (all_fine "y") []).2 !! j = Some (RawInput prompt).
Proof.
  assert ((main_from sets_A (all_fine "y") []).2 !! 9
          = Some (Execute [Trash "2"])) as Hex by (by vm_compute).
  split; [exact Hex|].
  destruct (report_confirm_remove_order sets_A (all_fine "y")) as (_ & Horder & _).
  apply (Horder 9 [Trash "2"] Hex).
Defined.

(** ** The reclaimable total *)

Lemma extras_insert_representative sets i s r' :
  sets !! i = Some s →
  extras (<[i := <[0 := r']> s]> sets) = extras sets.
Proof.
  revert i. induction sets as [|s0 sets IH]; intros i Hi; [done|].
  destruct i as [|i]; simpl in Hi.
  - injection Hi as ->.
    change (<[0 := <[0 := r']> s]> (s :: sets)) with (<[0 := r']> s :: sets).
    rewrite !extras_cons. f_equal. by destruct s.
  - change (<[S i := <[0 := r']> s]> (s0 :: sets))
      with (s0 :: <[i := <[0 := r']> s]> sets).
    rewrite !extras_cons. f_equal. by apply IH.
Qed.

Lemma wasted_in_preamble sets :
  PrintWasted (Qmake (reclaimable_bytes sets) ONE_GIG) ∈ preamble sets.
Proof.
  destruct (preamble_split sets) as (lines & _ & ->).
  apply elem_of_app. right. left.
Qed.

(** C6. For every sequence of duplicate sets, the total the report loop
    computes is the sum of the sizes of the members at index 1 and above of
    every set; replacing the representative of a set by any record leaves it
    unchanged; and it is the total a run with duplicate sets prints, over
    the divisor [ONE_GIG]. *)
Theorem total_sums_removable_sizes dupes e t :
  (report_sets dupes e t).1 = Some (reclaimable_bytes dupes)
  ∧ (∀ i s r', dupes !! i = Some s →
       (report_sets (<[i := <[0 := r']> s]> dupes) e t).1
       = (report_sets dupes e t).1)
  ∧ (dupes ≠ [] →
       PrintWasted (Qmake (reclaimable_bytes dupes) ONE_GIG)
       ∈ (main_from dupes e []).2).
Proof.
  split; [by rewrite report_sets_run|]. split.
  - intros i s r' Hi. rewrite !report_sets_run. simpl.
    unfold reclaimable_bytes. by rewrite extras_insert_representative.
  - intros Hne. destruct (main_from_trace dupes e Hne) as (after & -> & _).
    apply elem_of_app. left. apply wasted_in_preamble.
Qed.

Lemma total_sums_removable_sizes_witness :
  (report_sets sets_A (all_fine "y") []).1 = Some 20%Z
  ∧ (report_sets
       (<[0 := <[0 := record "9" "x" 1000]> [record "1" "x" 10; record "2" "x" 20]]>
          sets_A)
       (all_fine "y") []).1 = Some 20%Z
  ∧ PrintWasted (Qmake 20 ONE_GIG) ∈ (main_from sets_A (all_fine "y") []).2.
Proof.
  pose proof (total_sums_removable_sizes sets_A (all_fine "y") [])
    as (Htotal & Hhead & Hprint).
  split; [exact Htotal|]. split.
  - rewrite (Hhead 0 [record "1" "x" 10; record "2" "x" 20]
               (record "9" "x" 1000) eq_refl). exact Htotal.
  - apply Hprint. done.
Defined.

(** ** No duplicates *)

(** C7, as stated, fails on its last part: on a listing without shared
    fingerprints the run prints no byte total at all. *)
Lemma no_total_without_duplicates :
  find_dupes scenario_B = []
  ∧ ¬ ∃ q, PrintWasted q ∈ (main scenario_B (all_fine "y") []).2.
Proof.
  split; [by vm_compute|]. intros [q Hq].
  assert ((main scenario_B (all_fine "y") []).2
          = [Print "0 duplicates found. "; Print "We are done."]) as E
    by (by vm_compute).
  rewrite E in Hq. apply list_elem_of_In in Hq. simpl in Hq.
  destruct Hq as [Hq|[Hq|[]]]; discriminate.
Qed.

(** C7, amended. For every listing that yields no duplicate set, whatever
    the service and the reply, the run returns after printing the count 0
    and the closing line, and nothing else: no prompt is shown, no batch is
    executed, and no byte total is printed (the total of no sets is 0). *)
Theorem no_duplicates_ends_run files e :
  find_dupes files = [] →
  main files e [] = (Some (), [Print "0 duplicates found. "; Print "We are done."])
  ∧ executed (main files e []).2 = []
  ∧ (∀ p, RawInput p ∉ (main files e []).2)
  ∧ (∀ q, PrintWasted q ∉ (main files e []).2)
  ∧ reclaimable_bytes (find_dupes files) = 0%Z.
Proof.
  intros Hnone. unfold main. rewrite Hnone, main_from_empty. simpl.
  split; [done|]. split; [done|]. split; [|split; [|done]].
  - intros p Hp. apply list_elem_of_In in Hp. simpl in Hp.
    destruct Hp as [Hp|[Hp|[]]]; discriminate.
  - intros q Hq. apply list_elem_of_In in Hq. simpl in Hq.
    destruct Hq as [Hq|[Hq|[]]]; discriminate.
Qed.

Lemma no_duplicates_ends_run_witness :
  find_dupes scenario_B = []
  ∧ main scenario_B (unreachable "y") []
    = (Some (), [Print "0 duplicates found. "; Print "We are done."]).
Proof.
  assert (find_dupes scenario_B = []) as Hnone by (by vm_compute).
  split; [exact Hnone|].
  apply (no_duplicates_ends_run scenario_B (unreachable "y") Hnone).
Defined.

(** ** The confirmation gate *)

Lemma executed_prints (l : trace) : Forall is_print l → executed l = [].
Proof.
  induction 1 as [|ev l Hev _ IH]; [done|].
  destruct ev; done.
Qed.

Lemma executed_preamble sets : executed (preamble sets) = [].
Proof.
  destruct (preamble_split sets) as (lines & Hlines & ->).
  rewrite executed_app, executed_prints by done. done.
Qed.

Lemma elem_of_executed (t : trace) order : Execute order ∈ t ↔ order ∈ executed t.
Proof.
  unfold executed. rewrite list_elem_of_omap. split.
  - intros H. by exists (Execute order).
  - intros (ev & Hev & Hsome). destruct ev; try done. by injection Hsome as ->.
Qed.

(** The first sealed batch holds the first request. *)
Lemma seal_first_request ceiling r reqs :
  ∃ more rest, seal ceiling [] (r :: reqs) = (r :: more) :: rest.
Proof.
  rewrite seal_cons. simpl ([] ++ [r]).
  destruct (length [r] =? ceiling).
  - by exists [], (seal ceiling [] reqs).
  - destruct (seal_first ceiling [r] reqs) as (more & rest & ->).
    by exists more, rest.
Qed.

(** A listing with a duplicate set has a removable member. *)
Lemma find_dupes_extras files :
  find_dupes files ≠ [] → extras (find_dupes files) ≠ [].
Proof.
  destruct (find_dupes files) as [|s sets] eqn:E; [done|]. intros _.
  assert (s ∈ find_dupes files) as Hs by (rewrite E; left).
  apply elem_of_find_dupes in Hs as (fp & _ & Hlen).
  rewrite extras_cons. destruct s as [|r [|r' s]]; simpl in *; [lia|lia|done].
Qed.

(** C9. In every run that reaches the prompt, a trash request is handed to
    the service exactly when the reply, stripped of surrounding whitespace,
    is the string [y]; after any other reply (such as [Y], [yes] or the
    empty line) no batch is executed and the run returns with the line
    saying that nothing was touched as its last event. *)
Theorem trash_iff_reply_is_y files e :
  find_dupes files ≠ [] →
  let run := main files e [] in
  ((∃ order fid, Execute order ∈ run.2 ∧ Trash fid ∈ order)
     ↔ strip (reply e) = "y")
  ∧ (strip (reply e) ≠ "y" →
       executed run.2 = []
       ∧ last run.2 = Some (Print "Not touching anything.")
       ∧ run.1 = Some ())
  ∧ strip "Y" ≠ "y" ∧ strip "yes" ≠ "y" ∧ strip "" ≠ "y" ∧ strip "  y " = "y".
Proof.
  intros Hsets run. subst run. unfold main.
  destruct (main_from_trace (find_dupes files) e Hsets)
    as (after & Htr & _ & Hno & Hyes).
  split; [|split; [|done]].
  - split.
    + intros (order & fid & Hin & _).
      destruct (decide (strip (reply e) = "y")) as [|Hn]; [done|]. exfalso.
      destruct (Hno Hn) as [-> _]. rewrite Htr in Hin.
      apply elem_of_executed in Hin.
      rewrite executed_app, executed_preamble in Hin. by apply elem_of_nil in Hin.
    + intros Hy. destruct (Hyes Hy) as (n & tail & Hn & _ & ->).
      destruct (trash_requests (find_dupes files)) as [|r reqs] eqn:E.
      { apply find_dupes_extras in Hsets. unfold trash_requests in E.
        by destruct (extras (find_dupes files)). }
      destruct (seal_first_request 1000 r reqs) as (more & rest & Hseal).
      assert (∃ fid, r = Trash fid) as [fid ->].
      { unfold trash_requests in E.
        destruct (extras (find_dupes files)) as [|d ds]; [done|].
        injection E as <- _. eauto. }
      exists (Trash fid :: more), fid. split; [|left].
      rewrite Htr, Hseal. destruct n as [|n]; [lia|].
      apply elem_of_app. right. apply elem_of_app. right.
      apply elem_of_app. left. apply list_elem_of_fmap_2. left.
  - intros Hn. destruct (Hno Hn) as [-> Hret]. rewrite Htr.
    split; [|split; [|done]].
    + rewrite executed_app, executed_preamble. done.
    + by rewrite last_snoc.
Qed.

Lemma trash_iff_reply_is_y_witness :
  find_dupes scenario_A ≠ []
  ∧ ((∃ order fid, Execute order ∈ (main scenario_A (all_fine " y") []).2
                   ∧ Trash fid ∈ order)
     ↔ strip (reply (all_fine " y")) = "y").
Proof.
  assert (find_dupes scenario_A ≠ []) as Hsets by (by vm_compute).
  split; [exact Hsets|].
  apply (trash_iff_reply_is_y scenario_A (all_fine " y") Hsets).
Defined.

(** ** Outcomes of the sub-operations *)

Lemma main_from_returns dupes e :
  always_returns e → dupes ≠ [] → strip (reply e) = "y" →
  main_from dupes e [] =
  (Some (),
   preamble dupes ++ [Print "Trashing."]
   ++ (Execute <$> seal 1000 [] (trash_requests dupes))
   ++ [Print "We are done. Check the trash for your files."]).
Proof.
  intros He Hne Hy. rewrite main_from_run by done.
  rewrite bool_decide_true by done.
  rewrite execute_all_returns by done. by rewrite <-!app_assoc.
Qed.

(** C3, as stated, fails on its last part.  On scenario A, a run on a
    service that fails the one sub-operation and a run on a service that
    fails none are the same run, event for event, so that nothing computed
    from what a run shows can be the number of failed operations. *)
Lemma failed_operation_leaves_no_trace :
  main scenario_A (failing_on "2" "y") [] = main scenario_A (all_fine "y") []
  ∧ failures (failing_on "2" "y") (main scenario_A (failing_on "2" "y") []).2 = 1
  ∧ failures (all_fine "y") (main scenario_A (all_fine "y") []).2 = 0
  ∧ ¬ ∃ report : trace → nat,
        ∀ e, report (main scenario_A e []).2 = failures e (main scenario_A e []).2.
Proof.
  assert (main scenario_A (failing_on "2" "y") []
          = main scenario_A (all_fine "y") []) as Hsame by (by vm_compute).
  assert (failures (failing_on "2" "y")
            (main scenario_A (failing_on "2" "y") []).2 = 1) as H1
    by (by vm_compute).
  assert (failures (all_fine "y") (main scenario_A (all_fine "y") []).2 = 0)
    as H0 by (by vm_compute).
  split; [done|]. split; [done|]. split; [done|].
  intros [report Hreport].
  pose proof (Hreport (failing_on "2" "y")) as Ha.
  pose proof (Hreport (all_fine "y")) as Hb.
  rewrite Hsame in Ha at 1. rewrite H1 in Ha. rewrite H0 in Hb. congruence.
Qed.

(** C3, amended.  When the batch calls return, whatever the outcomes of
    their sub-operations, a confirmed run is not cut short: every sealed
    batch is handed over whole, so each sub-operation together with its
    siblings, and the batches after it too.  The run shows nothing of the
    outcomes: on any two services whose calls return it is the same run,
    ending with the same closing line, without counts or identifiers of
    failures. *)
Theorem failures_neither_stop_nor_show dupes e :
  always_returns e → dupes ≠ [] → strip (reply e) = "y" →
  (main_from dupes e []).1 = Some ()
  ∧ executed (main_from dupes e []).2 = seal 1000 [] (trash_requests dupes)
  ∧ concat (executed (main_from dupes e []).2) = trash_requests dupes
  ∧ last (main_from dupes e []).2
    = Some (Print "We are done. Check the trash for your files.")
  ∧ (∀ e', always_returns e' → reply e' = reply e →
           main_from dupes e' [] = main_from dupes e []).
Proof.
  intros He Hne Hy. rewrite main_from_returns by done. cbn [fst snd].
  split; [done|].
  assert (executed
            (preamble dupes ++ [Print "Trashing."]
             ++ (Execute <$> seal 1000 [] (trash_requests dupes))
             ++ [Print "We are done. Check the trash for your files."])
          = seal 1000 [] (trash_requests dupes)) as Hex.
  { rewrite !executed_app, executed_preamble, executed_batches.
    simpl. by rewrite app_nil_r. }
  split; [done|]. split; [by rewrite Hex, seal_concat|]. split.
  - by rewrite !app_assoc, last_snoc.
  - intros e' He' Hreply. rewrite main_from_returns; [done..|]. congruence.
Qed.

Lemma failures_neither_stop_nor_show_witness :
  always_returns (failing_on "2" "y") ∧ sets_A ≠ []
  ∧ strip (reply (failing_on "2" "y")) = "y"
  ∧ executed (main_from sets_A (failing_on "2" "y") []).2 = [[Trash "2"]].
Proof.
  split; [apply failing_on_returns|]. split; [done|]. split; [done|].
  apply (failures_neither_stop_nor_show sets_A (failing_on "2" "y")
           (failing_on_returns "2" "y")); done.
Defined.

(** ** Chunks *)

Section chunking.

Context {A : Type}.
Implicit Types (l : list A) (n : nat).

Lemma chunks_bounded l n : Forall (λ c, length c ≤ n) (DateFix.chunks l n).
Proof.
  unfold DateFix.chunks. apply Forall_fmap, Forall_true. intros i. simpl.
  rewrite length_take. lia.
Qed.

Lemma chunks_subseteq l n c : c ∈ DateFix.chunks l n → c ⊆ l.
Proof.
  unfold DateFix.chunks. intros (i & -> & _)%list_elem_of_fmap.
  etrans; [apply subseteq_take|apply subseteq_drop].
Qed.

Lemma concat_slices l n m :
  concat ((λ k, take n (drop (k * n) l)) <$> seq 0 m) = take (m * n) l.
Proof.
  induction m as [|m IH]; [done|].
  rewrite seq_S, fmap_app, concat_app, IH. simpl. rewrite app_nil_r.
  rewrite take_take_drop. f_equal. lia.
Qed.

(** The chunks, put end to end, are the list. *)
Lemma concat_chunks l n : 1 ≤ n → concat (DateFix.chunks l n) = l.
Proof.
  intros Hn. unfold DateFix.chunks, DateFix.xrange.
  rewrite <-list_fmap_compose.
  etrans; [apply (concat_slices l n)|]. apply take_ge.
  rewrite Nat.sub_0_r.
  pose proof (Nat.div_mod_eq (length l + n - 1) n) as Hd.
  pose proof (Nat.mod_upper_bound (length l + n - 1) n ltac:(lia)) as Hm.
  nia.
Qed.

End chunking.

(** ** A pass of the date fixer *)

Section pass.

Variable strptime : string → string → option DateFix.datetime.
Variable isoformat : DateFix.datetime → string → string.

#[local] Abbreviation add_patch := (DateFix.add_patch strptime isoformat).
#[local] Abbreviation batch_patch_dates :=
  (DateFix.batch_patch_dates strptime isoformat).
#[local] Abbreviation patch_for := (Dates.patch_for strptime isoformat).
#[local] Abbreviation patches := (Dates.patches strptime isoformat).
#[local] Abbreviation capture_date := (Dates.capture_date strptime).
#[local] Abbreviation up_to_date := (Dates.up_to_date strptime isoformat).

Lemma add_patch_run batch f e t :
  add_patch batch f e t = (Some (batch ++ option_list (patch_for f)), t).
Proof.
  unfold DateFix.add_patch, patch_for, Dates.capture_date.
  destruct (DateFix.exif_date f) as [[|c ts]|]; simpl;
    [by rewrite app_nil_r| |by rewrite app_nil_r].
  destruct (DateFix.parseDate strptime (String c ts)) as [d|]; simpl;
    [|by rewrite app_nil_r].
  destruct (bool_decide _); simpl; [by rewrite app_nil_r|done].
Qed.

Lemma add_patches_run chunk batch e t :
  for_each chunk add_patch batch e t = (Some (batch ++ patches chunk), t).
Proof.
  revert batch. induction chunk as [|f chunk IH]; intros batch.
  - simpl. by rewrite app_nil_r.
  - simpl for_each. rewrite run_bind, add_patch_run, IH, <-app_assoc.
    unfold Dates.patches. simpl. destruct (patch_for f); done.
Qed.

(** A pass hands to [execute], one after the other and as long as the calls
    return, the requests for the items of each chunk of 100. *)
Lemma batch_patch_dates_run files e t :
  batch_patch_dates files e t
  = execute_all (patches <$> DateFix.chunks files 100) e t.
Proof.
  unfold DateFix.batch_patch_dates. generalize (DateFix.chunks files 100).
  intros cs. revert t. induction cs as [|c cs IH]; intros t; [done|].
  rewrite fmap_cons, execute_all_cons. simpl for_each.
  rewrite !run_bind, add_patches_run, run_execute. simpl.
  destruct (answer e t (patches c)); [done|]. apply IH.
Qed.

Lemma patch_batches_executed files e order :
  order ∈ executed (batch_patch_dates files e []).2 →
  ∃ chunk, chunk ∈ DateFix.chunks files 100 ∧ order = patches chunk.
Proof.
  rewrite batch_patch_dates_run.
  destruct (execute_all_trace (patches <$> DateFix.chunks files 100) e [])
    as (n & _ & _ & -> & _).
  simpl. rewrite executed_batches. intros Hin.
  apply subseteq_take, list_elem_of_fmap in Hin as (chunk & -> & Hin). eauto.
Qed.

Lemma patch_requests_of_pass files e :
  always_returns e →
  concat (executed (batch_patch_dates files e []).2) = patches files.
Proof.
  intros He. rewrite batch_patch_dates_run, execute_all_returns by done.
  simpl. rewrite executed_batches.
  rewrite <-(concat_chunks files 100) at 2 by lia.
  generalize (DateFix.chunks files 100). intros cs.
  induction cs as [|c cs IH]; [done|].
  rewrite fmap_cons. simpl. rewrite IH. unfold Dates.patches.
  by rewrite omap_app.
Qed.

Lemma settled_no_patch f :
  capture_date f = None ∨ up_to_date f → patch_for f = None.
Proof.
  unfold patch_for, Dates.up_to_date. intros [->|(d & -> & Hd)]; [done|].
  by rewrite bool_decide_true.
Qed.

Lemma settled_pass_is_empty files e order :
  (∀ f, f ∈ files → patch_for f = None) →
  order ∈ executed (batch_patch_dates files e []).2 → order = [].
Proof.
  intros Hfiles (chunk & Hchunk & ->)%patch_batches_executed.
  apply chunks_subseteq in Hchunk. unfold Dates.patches.
  induction chunk as [|f chunk IH]; [done|]. simpl.
  rewrite Hfiles by (apply Hchunk; left).
  apply IH. intros g Hg. apply Hchunk. by right.
Qed.

Lemma patch_for_id f r : patch_for f = Some r → ∃ date, r = Patch (DateFix.id f) date.
Proof.
  unfold Dates.patch_for. destruct (capture_date f) as [d|]; [|done].
  destruct (bool_decide _); [done|]. intros [= <-]. eauto.
Qed.

Lemma capture_date_metadata f f' :
  DateFix.imageMediaMetadata f' = DateFix.imageMediaMetadata f →
  capture_date f' = capture_date f.
Proof.
  intros Hmeta. unfold Dates.capture_date, DateFix.exif_date. by rewrite Hmeta.
Qed.

Lemma same_id_same_item (files : list DateFix.fmeta) f g :
  NoDup (DateFix.id <$> files) → f ∈ files → g ∈ files →
  DateFix.id g = DateFix.id f → g = f.
Proof.
  induction files as [|h files IH]; intros Hnd Hf Hg Hid.
  - by apply elem_of_nil in Hf.
  - rewrite fmap_cons in Hnd. apply NoDup_cons in Hnd as [Hh Hnd].
    apply elem_of_cons in Hf as [->|Hf], Hg as [->|Hg].
    + done.
    + destruct Hh. rewrite <-Hid. by apply list_elem_of_fmap_2.
    + destruct Hh. rewrite Hid. by apply list_elem_of_fmap_2.
    + by apply IH.
Qed.

(** Once the requests of a pass over items with pairwise different ids have
    taken effect, the items call for no request. *)
Lemma refreshed_settled files files' e f' :
  always_returns e →
  NoDup (DateFix.id <$> files) →
  Forall2 (Dates.refreshed (batch_patch_dates files e []).2) files files' →
  f' ∈ files' → patch_for f' = None.
Proof.
  intros He Hnd Hrefreshed [i Hi]%list_elem_of_lookup.
  destruct (Forall2_lookup_r _ _ _ _ _ Hrefreshed Hi)
    as (f & Hf & Hid & Hmeta & Hpatched & Hkept).
  rewrite patch_requests_of_pass in Hpatched, Hkept by done.
  assert (f ∈ files) as Hin by (apply list_elem_of_lookup; eauto).
  unfold Dates.patch_for. rewrite (capture_date_metadata f f') by done.
  destruct (capture_date f) as [d|] eqn:Ed; [|done].
  rewrite bool_decide_true; [done|].
  destruct (decide (DateFix.formatDate isoformat d = DateFix.modifiedDate f))
    as [Heq|Hneq].
  - rewrite Hkept; [done|]. intros date Hdate.
    apply list_elem_of_omap in Hdate as (g & Hg & Hpatch).
    destruct (patch_for_id g _ Hpatch) as [date' [= Hgid _]].
    assert (g = f) as -> by (by apply (same_id_same_item files)).
    unfold Dates.patch_for in Hpatch. rewrite Ed in Hpatch.
    by rewrite bool_decide_true in Hpatch.
  - symmetry. apply Hpatched. apply list_elem_of_omap. exists f.
    split; [done|]. unfold Dates.patch_for. rewrite Ed.
    by rewrite bool_decide_false.
Qed.

(** C10, amended.  An item without a capture date (no EXIF date, an empty
    one, or one that does not parse) and an item whose modification date is
    already, character for character, its formatted capture date leave the
    batch as it is; a pass over such items only executes empty batches; and
    so does a second pass, provided the batch calls of the first pass
    returned, its items have pairwise different ids, and the listing the
    second pass runs on shows, for every item the first pass patched, the
    modification date in the very string the request carried. *)
Theorem date_fix_is_idempotent :
  (∀ f batch e t,
     capture_date f = None ∨ up_to_date f →
     add_patch batch f e t = (Some batch, t))
  ∧ (∀ files e order,
       (∀ f, f ∈ files → capture_date f = None ∨ up_to_date f) →
       order ∈ executed (batch_patch_dates files e []).2 → order = [])
  ∧ (∀ files files' e e' order,
       always_returns e →
       NoDup (DateFix.id <$> files) →
       Forall2 (Dates.refreshed (batch_patch_dates files e []).2) files files' →
       order ∈ executed (batch_patch_dates files' e' []).2 → order = []).
Proof.
  split; [|split].
  - intros f batch e t Hf. rewrite add_patch_run, settled_no_patch by done.
    simpl. by rewrite app_nil_r.
  - intros files e order Hfiles. apply settled_pass_is_empty.
    intros f Hf. by apply settled_no_patch, Hfiles.
  - intros files files' e e' order He Hnd Hrefreshed.
    apply settled_pass_is_empty. intros f' Hf'.
    by apply (refreshed_settled files files' e).
Qed.

End pass.

(** C10, as stated, fails on its second part: line 107 compares strings,
    and nothing makes the service list a date in the string the script
    formats.  The first pass over [album_before] asks to set the date of
    item [a]; on the album as listed again afterwards with milliseconds, the
    same instant, the second pass makes the same request again. *)
Lemma second_pass_patches_again :
  concat (executed
            (DateFix.batch_patch_dates strptime_fixed isoformat_padded
               album_before (all_fine "y") []).2)
  = [Patch "a" "2012-06-04T12:00:00.0Z"]
  ∧ concat (executed
              (DateFix.batch_patch_dates strptime_fixed isoformat_padded
                 album_relisted (all_fine "y") []).2)
    = [Patch "a" "2012-06-04T12:00:00.0Z"]
  ∧ ¬ (∀ order,
         order ∈ executed
                   (DateFix.batch_patch_dates strptime_fixed isoformat_padded
                      album_relisted (all_fine "y") []).2 →
         order = []).
Proof.
  split; [by vm_compute|]. split; [by vm_compute|].
  intros Hnone.
  assert (executed
            (DateFix.batch_patch_dates strptime_fixed isoformat_padded
               album_relisted (all_fine "y") []).2
          = [[Patch "a" "2012-06-04T12:00:00.0Z"]]) as E by (by vm_compute).
  rewrite E in Hnone.
  by specialize (Hnone [Patch "a" "2012-06-04T12:00:00.0Z"] ltac:(left)).
Qed.

Lemma date_fix_is_idempotent_witness :
  always_returns (all_fine "y")
  ∧ NoDup (DateFix.id <$> album_before)
  ∧ Forall2
      (Dates.refreshed
         (DateFix.batch_patch_dates strptime_fixed isoformat_padded
            album_before (all_fine "y") []).2)
      album_before album_after
  ∧ (∀ order,
       order ∈ executed
                 (DateFix.batch_patch_dates strptime_fixed isoformat_padded
                    album_after (all_fine "y") []).2 →
       order = []).
Proof.
  assert (NoDup (DateFix.id <$> album_before)) as Hnd.
  { apply (bool_decide_unpack _). by vm_compute. }
  assert (concat (executed
            (DateFix.batch_patch_dates strptime_fixed isoformat_padded
               album_before (all_fine "y") []).2)
          = [Patch "a" "2012-06-04T12:00:00.0Z"]) as Hpass by (by vm_compute).
  assert (Forall2
            (Dates.refreshed
               (DateFix.batch_patch_dates strptime_fixed isoformat_padded
                  album_before (all_fine "y") []).2)
            album_before album_after) as Href.
  { unfold Dates.refreshed. rewrite Hpass.
    constructor; [|constructor; [|constructor]].
    - split; [done|]. split; [done|]. split.
      + intros date Hdate. apply list_elem_of_singleton in Hdate.
        by injection Hdate as <-.
      + intros Hnone. destruct (Hnone "2012-06-04T12:00:00.0Z"). left.
    - split; [done|]. split; [done|]. split; [|done].
      intros date Hdate. apply list_elem_of_singleton in Hdate. discriminate. }
  split; [apply all_fine_returns|]. split; [exact Hnd|]. split; [exact Href|].
  intros order.
  apply (proj2 (proj2 (date_fix_is_idempotent strptime_fixed isoformat_padded))
           album_before album_after (all_fine "y") (all_fine "y") order
           (all_fine_returns "y") Hnd Href).
Defined.

(** ** The ceilings *)

Lemma omap_shorter {A B : Type} (f : A → option B) (l : list A) :
  length (omap f l) ≤ length l.
Proof.
  induction l as [|x l IH]; [done|].
  change (omap f (x :: l))
    with (match f x with Some y => y :: omap f l | None => omap f l end).
  destruct (f x); simpl; lia.
Qed.

Lemma executed_main_from dupes e order :
  order ∈ executed (main_from dupes e []).2 →
  order ∈ seal 1000 [] (trash_requests dupes).
Proof.
  destruct dupes as [|s dupes].
  - rewrite main_from_empty. simpl. by intros ?%elem_of_nil.
  - destruct (main_from_trace (s :: dupes) e) as (after & -> & _ & Hno & Hyes);
      [done|].
    rewrite executed_app, executed_preamble. simpl.
    destruct (decide (strip (reply e) = "y")) as [Hy|Hn].
    + destruct (Hyes Hy) as (n & tail & _ & Htail & ->).
      change (executed ([Print "Trashing."] ++ ?l)) with (executed l).
      rewrite executed_app, executed_batches, (executed_prints tail), app_nil_r
        by done.
      apply subseteq_take.
    + destruct (Hno Hn) as [-> _]. simpl. by intros ?%elem_of_nil.
Qed.

(** C8, as stated, fails: the remediation of the duplicate remover executes
    a batch of 1000 requests, so that no ceiling below 1000 is applied. *)
Lemma ceiling_is_not_below_1000 :
  ¬ ∃ c, c < 1000
         ∧ ∀ order,
             order ∈ executed (main_from (one_set 1000) (all_fine "y") []).2 →
             length order ≤ c.
Proof.
  intros (c & Hc & Hbound).
  assert (length <$> executed (main_from (one_set 1000) (all_fine "y") []).2
          = [1000; 0]) as Hlen by (by vm_compute).
  assert (1000 ∈ length <$> executed (main_from (one_set 1000) (all_fine "y") []).2)
    as Hin by (rewrite Hlen; left).
  apply list_elem_of_fmap in Hin as (order & Horder & Hin).
  apply Hbound in Hin. lia.
Qed.

(** C8, amended.  The ceilings are the numbers written in the code, which
    no input of a run changes: every batch the duplicate remover executes
    holds at most 1000 requests, the recommended maximum itself, and a batch
    of 1000 is executed on a set with 1000 removable members; every batch
    the date fixer executes holds at most 100 requests, a value below 1000,
    and a batch of 100 is executed on 100 images to fix. *)
Theorem ceilings_are_1000_and_100 :
  (∀ dupes e order,
     order ∈ executed (main_from dupes e []).2 → length order ≤ 1000)
  ∧ (∃ order,
       order ∈ executed (main_from (one_set 1000) (all_fine "y") []).2
       ∧ length order = 1000)
  ∧ (∀ strptime isoformat files e order,
       order ∈ executed
                 (DateFix.batch_patch_dates strptime isoformat files e []).2 →
       length order ≤ 100)
  ∧ (∃ order,
       order ∈ executed
                 (DateFix.batch_patch_dates strptime_fixed isoformat_padded
                    (replicate 100 (photo "a" "")) (all_fine "y") []).2
       ∧ length order = 100).
Proof.
  split; [|split; [|split]].
  - intros dupes e order Hin%executed_main_from.
    pose proof (seal_bounded 1000 ltac:(lia) [] (trash_requests dupes)
                  ltac:(simpl; lia)) as Hb.
    by eapply Forall_forall in Hb.
  - assert (length <$> executed (main_from (one_set 1000) (all_fine "y") []).2
            = [1000; 0]) as Hlen by (by vm_compute).
    assert (1000 ∈ length <$> executed
                     (main_from (one_set 1000) (all_fine "y") []).2)
      as Hin by (rewrite Hlen; left).
    apply list_elem_of_fmap in Hin as (order & Horder & Hin). eauto.
  - intros strptime isoformat files e order
      (chunk & Hchunk & ->)%patch_batches_executed.
    pose proof (chunks_bounded files 100) as Hb.
    eapply Forall_forall in Hb; [|done].
    unfold Dates.patches. etrans; [apply omap_shorter|done].
  - assert (length <$> executed
              (DateFix.batch_patch_dates strptime_fixed isoformat_padded
                 (replicate 100 (photo "a" "")) (all_fine "y") []).2
            = [100]) as Hlen by (by vm_compute).
    assert (100 ∈ length <$> executed
              (DateFix.batch_patch_dates strptime_fixed isoformat_padded
                 (replicate 100 (photo "a" "")) (all_fine "y") []).2)
      as Hin by (rewrite Hlen; left).
    apply list_elem_of_fmap in Hin as (order & Horder & Hin). eauto.
Qed.

Lemma ceilings_are_1000_and_100_witness :
  [Trash "2"] ∈ executed (main_from sets_A (all_fine "y") []).2
  ∧ length [Trash "2"] ≤ 1000.
Proof.
  assert ([Trash "2"] ∈ executed (main_from sets_A (all_fine "y") []).2) as Hin.
  { assert (executed (main_from sets_A (all_fine "y") []).2 = [[Trash "2"]])
      as -> by (by vm_compute). left. }
  split; [exact Hin|].
  apply (proj1 ceilings_are_1000_and_100 sets_A (all_fine "y") [Trash "2"] Hin).
Defined.

(** ** The listing loops *)

Section listing.

Context {Item R : Type}.
Variable drive : nat → option string → option (Listing.page Item).
Variable keep : list Item → list R.

Implicit Types (pages : list (Listing.page Item)) (tok : option string).

(** Over pages that have items and announce a next page, the loop goes on
    with the next call, the results and the log grown by the pages. *)
Lemma fetch_loop_through pages fuel calls tok results log :
  announces drive calls tok pages →
  Listing.fetch_loop drive keep (length pages + fuel) calls tok results log
  = Listing.fetch_loop drive keep fuel (calls + length pages)
      (token_after tok pages) (results ++ kept keep pages)
      (log ++ log_of keep tok (length results) pages).
Proof.
  revert calls tok results log.
  induction pages as [|p pages IH]; intros calls tok results log Hpages.
  - simpl. unfold kept. simpl. by rewrite Nat.add_0_r, !app_nil_r.
  - destruct Hpages as (Hp & [its Hits] & [next Hnext] & Hrest).
    simpl. rewrite Hp, Hits, Hnext. rewrite Hnext in Hrest.
    rewrite IH by done. simpl.
    rewrite <-!app_assoc, !length_app. simpl.
    replace (calls + S (length pages)) with (S calls + length pages) by lia.
    done.
Qed.

Lemma serves_split pages calls tok :
  serves drive calls tok pages →
  Forall (λ p, is_Some (Listing.items p)) pages →
  ∃ front final,
    pages = front ++ [final]
    ∧ announces drive calls tok front
    ∧ drive (calls + length front) (token_after tok front) = Some final
    ∧ Listing.nextPageToken final = None
    ∧ is_Some (Listing.items final).
Proof.
  revert calls tok. induction pages as [|p pages IH]; intros calls tok; [done|].
  intros [Hp Hrest] Hitems. apply Forall_cons in Hitems as [Hpi Hitems].
  destruct pages as [|q pages].
  - exists [], p. simpl. by rewrite Nat.add_0_r.
  - destruct Hrest as [Hnext Hrest].
    destruct (IH _ _ Hrest Hitems) as (front & final & -> & Hfront & Hd & Hn & Hi).
    exists (p :: front), final. split; [done|]. split; [done|].
    split; [|done]. simpl.
    by replace (calls + S (length front)) with (S calls + length front) by lia.
Qed.

Lemma log_of_snoc pages final tok count :
  log_of keep tok count (pages ++ [final])
  = log_of keep tok count pages
    ++ [Listing.ListCall (token_after tok pages);
        Listing.Progress
          ("Fetched: " +:+ pretty (count + length (kept keep (pages ++ [final]))))].
Proof.
  revert tok count. induction pages as [|p pages IH]; intros tok count.
  - unfold kept. simpl. by rewrite app_nil_r.
  - simpl. rewrite IH, length_app, Nat.add_assoc. done.
Qed.

(** On a service that serves the pages of a list, all with items, a loop
    with at least as many steps as pages returns what it keeps of the
    pages, in their order, after one list call per page, each with the
    token the page before announced, and one progress line per page with
    the number of results so far. *)
Lemma fetch_pages_serves pages fuel :
  serves drive 0 None pages →
  Forall (λ p, is_Some (Listing.items p)) pages →
  length pages ≤ fuel →
  Listing.fetch_pages drive keep fuel
  = (Listing.Done (kept keep pages), log_of keep None 0 pages).
Proof.
  intros Hserves Hitems Hfuel.
  destruct (serves_split pages 0 None Hserves Hitems)
    as (front & final & -> & Hfront & Hd & Hn & [its Hits]).
  rewrite length_app in Hfuel. simpl in Hfuel, Hd.
  unfold Listing.fetch_pages.
  replace fuel with (length front + S (fuel - length front - 1)) by lia.
  rewrite (fetch_loop_through front) by done. simpl.
  rewrite Hd, Hits, Hn, log_of_snoc. unfold kept. rewrite bind_app. simpl.
  rewrite Hits, app_nil_r, <-app_assoc. done.
Qed.

(** When, after pages that have items and announce a next page, the list
    call raises or its answer has no items, the loop is left by an
    exception, having made that call: what it kept of the pages before is
    not returned. *)
Lemma fetch_pages_fails pages fuel :
  announces drive 0 None pages →
  (drive (length pages) (token_after None pages) = None
   ∨ ∃ p, drive (length pages) (token_after None pages) = Some p
          ∧ Listing.items p = None) →
  length pages < fuel →
  Listing.fetch_pages drive keep fuel
  = (Listing.Failed,
     log_of keep None 0 pages ++ [Listing.ListCall (token_after None pages)]).
Proof.
  intros Hpages Hfail Hfuel. unfold Listing.fetch_pages.
  replace fuel with (length pages + S (fuel - length pages - 1)) by lia.
  rewrite (fetch_loop_through pages) by done. simpl.
  destruct Hfail as [->|(p & -> & ->)]; done.
Qed.

(** On a service every answer of which has items and announces a next page,
    the loop uses up any number of steps: it never returns, and makes one
    list call per step. *)
Lemma fetch_loop_endless fuel calls tok results log :
  (∀ calls tok, ∃ p, drive calls tok = Some p
                     ∧ is_Some (Listing.items p)
                     ∧ is_Some (Listing.nextPageToken p)) →
  ∃ more,
    Listing.fetch_loop drive keep fuel calls tok results log
    = (Listing.Unfinished, log ++ more)
    ∧ length (list_calls more) = fuel.
Proof.
  intros Hdrive. revert calls tok results log.
  induction fuel as [|fuel IH]; intros calls tok results log.
  - exists []. simpl. by rewrite app_nil_r.
  - destruct (Hdrive calls tok) as (p & Hp & [its Hits] & [next Hnext]).
    simpl. rewrite Hp, Hits, Hnext.
    destruct (IH (S calls) (Some next) (results ++ keep its)
                ((log ++ [Listing.ListCall tok]) ++
                 [Listing.Progress
                    ("Fetched: " +:+ pretty (length (results ++ keep its)))]))
      as (more & -> & Hcount).
    exists (Listing.ListCall tok
            :: Listing.Progress
                 ("Fetched: " +:+ pretty (length (results ++ keep its)))
            :: more).
    split; [by rewrite <-!app_assoc|].
    change (S (length (list_calls more)) = S fuel). by rewrite Hcount.
Qed.

End listing.

Lemma kept_omap {Item R : Type} (f : Item → option R)
    (pages : list (Listing.page Item)) :
  kept (omap f) pages = omap f (page_items pages).
Proof.
  induction pages as [|p pages IH]; [done|].
  change (kept (omap f) (p :: pages))
    with (omap f (default [] (Listing.items p)) ++ kept (omap f) pages).
  change (page_items (p :: pages))
    with (default [] (Listing.items p) ++ page_items pages).
  by rewrite omap_app, IH.
Qed.

Lemma list_calls_log_of {Item R : Type} (keep : list Item → list R) tok count
    (pages : list (Listing.page Item)) :
  length (list_calls (log_of keep tok count pages)) = length pages.
Proof.
  revert tok count. induction pages as [|p pages IH]; intros tok count; [done|].
  simpl log_of.
  change (S (length (list_calls
            (log_of keep (Listing.nextPageToken p)
               (count + length (keep (default [] (Listing.items p)))) pages)))
          = S (length pages)).
  by rewrite IH.
Qed.

(** X1. On a service that serves a list of pages, all with items, the
    listing loop of the duplicate remover, given at least as many steps as
    pages, returns the records of the items that carry a checksum, in the
    order of the pages, and drops the others; it makes one list call per
    page and prints after each page the number of records so far. *)
Theorem dedup_fetch_keeps_checksummed drive pages fuel :
  serves drive 0 None pages →
  Forall (λ p, is_Some (Listing.items p)) pages →
  length pages ≤ fuel →
  DedupListing.fetch_all_metadata drive fuel
  = (Listing.Done (omap DedupListing.as_record (page_items pages)),
     log_of (omap DedupListing.as_record) None 0 pages)
  ∧ length (list_calls (DedupListing.fetch_all_metadata drive fuel).2)
    = length pages
  ∧ (∀ r, r ∈ omap DedupListing.as_record (page_items pages) ↔
          ∃ it, it ∈ page_items pages
                ∧ DedupListing.md5Checksum it = Some (md5Checksum r)
                ∧ DedupListing.as_record it = Some r).
Proof.
  intros Hserves Hitems Hfuel. unfold DedupListing.fetch_all_metadata.
  rewrite (fetch_pages_serves drive _ pages) by done. rewrite kept_omap.
  split; [done|]. split; [apply list_calls_log_of|].
  intros r. rewrite list_elem_of_omap. split.
  - intros (it & Hin & Hr). exists it. split; [done|]. split; [|done].
    unfold DedupListing.as_record in Hr.
    destruct (DedupListing.md5Checksum it); [|done].
    simpl in Hr. by injection Hr as <-.
  - intros (it & Hin & _ & Hr). eauto.
Qed.

Lemma dedup_fetch_keeps_checksummed_witness :
  serves (paged two_pages) 0 None two_pages
  ∧ Forall (λ p, is_Some (Listing.items p)) two_pages
  ∧ length two_pages ≤ 2
  ∧ (DedupListing.fetch_all_metadata (paged two_pages) 2).1
    = Listing.Done [record "1" "x" 1; record "3" "x" 1].
Proof.
  assert (serves (paged two_pages) 0 None two_pages) as Hserves.
  { simpl. split; [done|]. split; [by eexists|]. done. }
  assert (Forall (λ p, is_Some (Listing.items p)) two_pages) as Hitems.
  { repeat constructor; by eexists. }
  split; [exact Hserves|]. split; [exact Hitems|]. split; [done|].
  destruct (dedup_fetch_keeps_checksummed (paged two_pages) two_pages 2
              Hserves Hitems (le_n 2)) as [-> _].
  reflexivity.
Defined.

(** X2. On a service that serves a list of pages, all with items, the
    listing loop of the date fixer, given at least as many steps as pages,
    returns all the items of the pages, in their order, after one list call
    per page. *)
Theorem datefix_fetch_keeps_all drive pages fuel :
  serves drive 0 None pages →
  Forall (λ p, is_Some (Listing.items p)) pages →
  length pages ≤ fuel →
  DateFixListing.fetch_all_metadata drive fuel
  = (Listing.Done (page_items pages), log_of (λ its, its) None 0 pages)
  ∧ length (list_calls (DateFixListing.fetch_all_metadata drive fuel).2)
    = length pages.
Proof.
  intros Hserves Hitems Hfuel. unfold DateFixListing.fetch_all_metadata.
  rewrite (fetch_pages_serves drive _ pages) by done.
  split; [done|]. apply list_calls_log_of.
Qed.

Lemma datefix_fetch_keeps_all_witness :
  serves (paged [ {| Listing.nextPageToken := None;
                     Listing.items := Some album_before |} ]) 0 None
    [ {| Listing.nextPageToken := None; Listing.items := Some album_before |} ]
  ∧ (DateFixListing.fetch_all_metadata
       (paged [ {| Listing.nextPageToken := None;
                   Listing.items := Some album_before |} ]) 1).1
    = Listing.Done album_before.
Proof.
  assert (serves (paged [ {| Listing.nextPageToken := None;
                             Listing.items := Some album_before |} ]) 0 None
            [ {| Listing.nextPageToken := None;
                 Listing.items := Some album_before |} ]) as Hserves
    by (simpl; done).
  split; [exact Hserves|].
  destruct (datefix_fetch_keeps_all _ _ 1 Hserves
              ltac:(repeat constructor; by eexists) (le_n 1)) as [-> _].
  reflexivity.
Defined.

(** X3. In either script, when the list call raises or its answer has no
    items, after pages that had items and announced a next page, the
    listing loop is left by an exception: nothing is returned of what the
    pages before gave, and no call is made after the failing one. *)
Theorem fetch_fails_without_result {Item R : Type}
    (drive : nat → option string → option (Listing.page Item))
    (keep : list Item → list R) pages fuel :
  announces drive 0 None pages →
  (drive (length pages) (token_after None pages) = None
   ∨ ∃ p, drive (length pages) (token_after None pages) = Some p
          ∧ Listing.items p = None) →
  length pages < fuel →
  (Listing.fetch_pages drive keep fuel).1 = Listing.Failed
  ∧ last (Listing.fetch_pages drive keep fuel).2
    = Some (Listing.ListCall (token_after None pages))
  ∧ length (list_calls (Listing.fetch_pages drive keep fuel).2)
    = S (length pages).
Proof.
  intros Hpages Hfail Hfuel.
  rewrite (fetch_pages_fails drive keep pages) by done. simpl.
  split; [done|]. split; [by rewrite last_snoc|].
  unfold list_calls. rewrite omap_app, length_app.
  change (length (list_calls (log_of keep None 0 pages)) + 1 = S (length pages)).
  rewrite list_calls_log_of. lia.
Qed.

Lemma fetch_fails_without_result_witness :
  announces (paged (take 1 two_pages)) 0 None (take 1 two_pages)
  ∧ paged (take 1 two_pages) 1 (token_after None (take 1 two_pages)) = None
  ∧ (DedupListing.fetch_all_metadata (paged (take 1 two_pages)) 5).1
    = Listing.Failed.
Proof.
  assert (announces (paged (take 1 two_pages)) 0 None (take 1 two_pages))
    as Hpages.
  { simpl. split; [done|]. split; [by eexists|]. split; [by eexists|done]. }
  split; [exact Hpages|]. split; [done|].
  apply (fetch_fails_without_result (paged (take 1 two_pages))
           (omap DedupListing.as_record) (take 1 two_pages) 5 Hpages).
  - left. done.
  - simpl. lia.
Defined.

(** X4. In either script the listing loop has no bound of its own: on a
    service every answer of which has items and announces a next page, it
    has not returned after any number of steps, and has made one list call
    per step. *)
Theorem fetch_never_ends_on_endless_listing {Item R : Type}
    (drive : nat → option string → option (Listing.page Item))
    (keep : list Item → list R) fuel :
  (∀ calls tok, ∃ p, drive calls tok = Some p
                     ∧ is_Some (Listing.items p)
                     ∧ is_Some (Listing.nextPageToken p)) →
  (Listing.fetch_pages drive keep fuel).1 = Listing.Unfinished
  ∧ length (list_calls (Listing.fetch_pages drive keep fuel).2) = fuel.
Proof.
  intros Hdrive. unfold Listing.fetch_pages.
  destruct (fetch_loop_endless drive keep fuel 0 None [] [] Hdrive)
    as (more & -> & Hcount).
  done.
Qed.

Lemma fetch_never_ends_on_endless_listing_witness :
  (∀ calls tok, ∃ p, endless calls tok = Some p
                     ∧ is_Some (Listing.items p)
                     ∧ is_Some (Listing.nextPageToken p))
  ∧ (DedupListing.fetch_all_metadata endless 7).1 = Listing.Unfinished.
Proof.
  assert (∀ calls tok, ∃ p, endless calls tok = Some p
                            ∧ is_Some (Listing.items p)
                            ∧ is_Some (Listing.nextPageToken p)) as Hendless.
  { intros calls tok. eexists. split; [reflexivity|]. split; by eexists. }
  split; [exact Hendless|].
  apply (fetch_never_ends_on_endless_listing endless
           (omap DedupListing.as_record) 7 Hendless).
Defined.

(** ** More on the duplicate indexer *)

Lemma elem_of_shared_fingerprints files fp :
  fp ∈ shared_fingerprints files ↔ 2 ≤ length (bearing fp files).
Proof.
  unfold shared_fingerprints.
  rewrite list_elem_of_filter, elem_of_remove_dups. split; [by intros [? _]|].
  intros Hlen. split; [done|].
  destruct (bearing fp files) as [|f l] eqn:E; [simpl in Hlen; lia|].
  assert (f ∈ bearing fp files) as Hf by (rewrite E; left).
  apply list_elem_of_filter in Hf as [<- Hf]. by apply list_elem_of_fmap_2.
Qed.

Lemma shared_fingerprints_NoDup files : NoDup (shared_fingerprints files).
Proof. apply NoDup_filter, NoDup_remove_dups. Qed.

(** The first element a filter keeps is the first of the list that passes,
    and the rest is what the filter keeps of what follows. *)
Lemma filter_first {A : Type} (P : A → Prop) `{∀ x, Decision (P x)}
    (l : list A) r rest :
  filter P l = r :: rest →
  ∃ pre post, l = pre ++ r :: post ∧ Forall (λ x, ¬ P x) pre ∧ P r
              ∧ rest = filter P post.
Proof.
  induction l as [|x l IH]; [done|]. rewrite filter_cons.
  destruct (decide (P x)) as [Hx|Hx].
  - intros [= -> <-]. exists [], l. done.
  - intros (pre & post & -> & Hpre & Hr & ->)%IH.
    exists (x :: pre), post. split; [done|]. split; [by constructor|done].
Qed.

(** X5. In every duplicate set the representative is the earliest record of
    the listing that bears its fingerprint, and the other members are the
    records bearing that fingerprint that come after it, in the order of
    the listing: which copy is kept is decided by the listing order
    alone. *)
Theorem representative_is_earliest files s :
  s ∈ find_dupes files →
  ∃ r rest pre post,
    s = r :: rest
    ∧ files = pre ++ r :: post
    ∧ Forall (λ x, md5Checksum x ≠ md5Checksum r) pre
    ∧ rest = bearing (md5Checksum r) post
    ∧ rest ≠ [].
Proof.
  intros (fp & -> & Hlen)%elem_of_find_dupes.
  destruct (bearing fp files) as [|r rest] eqn:E; [simpl in Hlen; lia|].
  apply filter_first in E as (pre & post & -> & Hpre & <- & ->).
  exists r, (bearing (md5Checksum r) post), pre, post.
  split; [done|]. split; [done|]. split; [done|]. split; [done|].
  intros E. unfold bearing in Hlen. simpl in Hlen.
  unfold bearing in E. rewrite E in Hlen. simpl in Hlen. lia.
Qed.

Lemma representative_is_earliest_witness :
  [record "1" "x" 10; record "2" "x" 20] ∈ find_dupes scenario_A
  ∧ ∃ r rest pre post,
      [record "1" "x" 10; record "2" "x" 20] = r :: rest
      ∧ scenario_A = pre ++ r :: post
      ∧ Forall (λ x, md5Checksum x ≠ md5Checksum r) pre
      ∧ rest = bearing (md5Checksum r) post
      ∧ rest ≠ [].
Proof.
  assert ([record "1" "x" 10; record "2" "x" 20] ∈ find_dupes scenario_A) as Hin.
  { assert (find_dupes scenario_A = [[record "1" "x" 10; record "2" "x" 20]])
      as -> by (by vm_compute). left. }
  split; [exact Hin|]. apply (representative_is_earliest scenario_A _ Hin).
Defined.

(** A filter by a list of keys without repetition keeps what the filters by
    each key keep, put together. *)
Lemma filter_disjoint {A : Type} (P Q : A → Prop)
    `{∀ x, Decision (P x)} `{∀ x, Decision (Q x)} (l : list A) :
  (∀ x, P x → Q x → False) →
  filter (λ x, P x ∨ Q x) l ≡ₚ filter P l ++ filter Q l.
Proof.
  intros Hdisj. induction l as [|x l IH]; [done|].
  rewrite !filter_cons.
  destruct (decide (P x)) as [HP|HP], (decide (Q x)) as [HQ|HQ].
  - by destruct (Hdisj x).
  - rewrite decide_True by eauto. simpl. by rewrite IH.
  - rewrite decide_True by eauto. rewrite IH. apply Permutation_middle.
  - rewrite decide_False by (by intros [?|?]). done.
Qed.

Lemma bind_bearing (keys : list string) files :
  NoDup keys →
  keys ≫= (λ fp, bearing fp files)
  ≡ₚ filter (λ f, md5Checksum f ∈ keys) files.
Proof.
  induction 1 as [|k keys Hk _ IH]; simpl.
  - induction files as [|f files IHf]; [done|].
    rewrite filter_cons, decide_False by (by intros ?%elem_of_nil). done.
  - rewrite IH. unfold bearing.
    rewrite <-(filter_disjoint (λ f, md5Checksum f = k) (λ f, md5Checksum f ∈ keys))
      by (by intros f -> ?).
    apply reflexive_eq, list_filter_iff. intros f. rewrite elem_of_cons. done.
Qed.

Lemma find_dupes_by_fingerprint files :
  find_dupes files ≡ₚ (λ fp, bearing fp files) <$> shared_fingerprints files.
Proof.
  apply NoDup_Permutation.
  - apply find_dupes_NoDup.
  - apply NoDup_fmap_2_strong; [|apply shared_fingerprints_NoDup].
    intros fp fp' Hfp _ Heq. apply elem_of_shared_fingerprints in Hfp.
    destruct (bearing fp files) as [|f l] eqn:E; [simpl in Hfp; lia|].
    assert (f ∈ bearing fp files) as F1 by (rewrite E; left).
    assert (f ∈ bearing fp' files) as F2 by (rewrite <-Heq; left).
    apply list_elem_of_filter in F1 as [<- _], F2 as [<- _]. done.
  - intros s. rewrite elem_of_find_dupes, list_elem_of_fmap. split.
    + intros (fp & -> & Hlen). exists fp. split; [done|].
      by apply elem_of_shared_fingerprints.
    + intros (fp & -> & Hfp). exists fp. split; [done|].
      by apply elem_of_shared_fingerprints.
Qed.

Lemma concat_permutation {A : Type} (l k : list (list A)) :
  l ≡ₚ k → concat l ≡ₚ concat k.
Proof.
  induction 1 as [|x l k _ IH|x y l|l k m _ IH1 _ IH2]; simpl.
  - done.
  - by rewrite IH.
  - rewrite !app_assoc. apply Permutation_app_tail, Permutation_app_comm.
  - by rewrite IH1.
Qed.

Lemma concat_fmap_bind {A B : Type} (f : A → list B) (l : list A) :
  concat (f <$> l) = l ≫= f.
Proof.
  induction l as [|x l IH]; [done|].
  change (f x ++ concat (f <$> l) = f x ++ (l ≫= f)). by rewrite IH.
Qed.

(** The members of all duplicate sets are, up to order, the records whose
    fingerprint is shared. *)
Lemma concat_find_dupes files : concat (find_dupes files) ≡ₚ shared files.
Proof.
  rewrite (concat_permutation _ _ (find_dupes_by_fingerprint files)).
  rewrite concat_fmap_bind, bind_bearing by apply shared_fingerprints_NoDup.
  apply reflexive_eq, list_filter_iff. intros f.
  apply elem_of_shared_fingerprints.
Qed.

Lemma members_and_extras (sets : list (list FileRecord)) :
  Forall (λ s, s ≠ []) sets →
  length (concat sets) = length (extras sets) + length sets.
Proof.
  induction 1 as [|s sets Hs _ IH]; [done|].
  rewrite extras_cons. simpl. rewrite !length_app, IH.
  destruct s; [done|]. simpl. rewrite drop_0. lia.
Qed.

Lemma find_dupes_not_nil files : Forall (λ s, s ≠ []) (find_dupes files).
Proof.
  apply Forall_forall. intros s (fp & -> & Hlen)%elem_of_find_dupes E.
  rewrite E in Hlen. simpl in Hlen. lia.
Qed.

(** X6. The duplicate sets partition the records whose fingerprint is
    shared: put together they are those records, each as often as it is
    listed, and nothing else; so the removable members are as many as the
    records with a shared fingerprint, less one per shared fingerprint. *)
Theorem duplicate_sets_partition_shared files :
  concat (find_dupes files) ≡ₚ shared files
  ∧ length (extras (find_dupes files)) + length (shared_fingerprints files)
    = length (shared files)
  ∧ (∀ f, f ∈ files →
          length (bearing (md5Checksum f) files) ≤ 1 ↔
          f ∉ concat (find_dupes files)).
Proof.
  split; [apply concat_find_dupes|]. split.
  - rewrite <-(Permutation_length (concat_find_dupes files)).
    rewrite members_and_extras by apply find_dupes_not_nil.
    by rewrite find_dupes_count.
  - intros f Hf. rewrite (concat_find_dupes files). unfold shared.
    rewrite list_elem_of_filter. split.
    + intros Hle [Hge _]. lia.
    + intros Hnot. destruct (decide (length (bearing (md5Checksum f) files) ≤ 1));
        [done|]. destruct Hnot. split; [lia|done].
Qed.

Lemma duplicate_sets_partition_shared_witness :
  record "3" "y" 5 ∈ scenario_A
  ∧ record "3" "y" 5 ∉ concat (find_dupes scenario_A).
Proof.
  assert (record "3" "y" 5 ∈ scenario_A) as Hin by (right; right; left).
  split; [exact Hin|].
  destruct (duplicate_sets_partition_shared scenario_A) as (_ & _ & Hsingle).
  apply (Hsingle _ Hin). by vm_compute.
Defined.

Lemma bearing_permutation fp files files' :
  files ≡ₚ files' → bearing fp files ≡ₚ bearing fp files'.
Proof. intros Hperm. unfold bearing. by rewrite Hperm. Qed.

Lemma shared_fingerprints_permutation files files' :
  files ≡ₚ files' → shared_fingerprints files ≡ₚ shared_fingerprints files'.
Proof.
  intros Hperm. apply NoDup_Permutation; [apply shared_fingerprints_NoDup..|].
  intros fp. rewrite !elem_of_shared_fingerprints.
  by rewrite (Permutation_length (bearing_permutation fp _ _ Hperm)).
Qed.

(** X7. Listing the same records in another order changes neither the
    number of duplicate sets nor which records are grouped: every set of
    the one listing has the members of a set of the other, and the records
    in sets are the same; only the order within a set, hence the
    representative, depends on the listing order. *)
Theorem grouping_ignores_listing_order files files' :
  files ≡ₚ files' →
  length (find_dupes files) = length (find_dupes files')
  ∧ (∀ s, s ∈ find_dupes files → ∃ s', s' ∈ find_dupes files' ∧ s ≡ₚ s')
  ∧ concat (find_dupes files) ≡ₚ concat (find_dupes files').
Proof.
  intros Hperm. split; [|split].
  - rewrite !find_dupes_count.
    apply Permutation_length, shared_fingerprints_permutation, Hperm.
  - intros s (fp & -> & Hlen)%elem_of_find_dupes.
    exists (bearing fp files').
    pose proof (bearing_permutation fp _ _ Hperm) as Hb.
    split; [|done]. apply elem_of_find_dupes. exists fp. split; [done|].
    by rewrite <-(Permutation_length Hb).
  - rewrite !concat_find_dupes. unfold shared. rewrite Hperm.
    apply reflexive_eq, list_filter_iff. intros f.
    by rewrite (Permutation_length (bearing_permutation (md5Checksum f) _ _ Hperm)).
Qed.

Lemma grouping_ignores_listing_order_witness :
  scenario_A ≡ₚ reverse scenario_A
  ∧ length (find_dupes scenario_A) = length (find_dupes (reverse scenario_A)).
Proof.
  assert (scenario_A ≡ₚ reverse scenario_A) as Hperm
    by (symmetry; apply reverse_Permutation).
  split; [exact Hperm|].
  apply (grouping_ignores_listing_order scenario_A (reverse scenario_A) Hperm).
Defined.

(** ** What a run trashes *)

Lemma elem_of_concat {A : Type} (x : A) (l : list A) (ls : list (list A)) :
  x ∈ l → l ∈ ls → x ∈ concat ls.
Proof.
  intros Hx Hl. induction Hl as [l ls|l l' ls _ IH]; simpl;
    apply elem_of_app; [left|right]; auto.
Qed.

(** A removable member of a duplicate set of a listing stands in the
    listing after another record with its fingerprint. *)
Lemma extra_has_earlier_copy files f :
  f ∈ extras (find_dupes files) →
  ∃ pre post keeper,
    files = pre ++ f :: post ∧ keeper ∈ pre
    ∧ md5Checksum keeper = md5Checksum f.
Proof.
  intros (s & j & Hs & Hj & Hf)%elem_of_extras.
  apply elem_of_find_dupes in Hs as (fp & -> & _).
  destruct (bearing fp files) as [|r rest] eqn:E; [done|].
  apply filter_first in E as (pre & post & -> & _ & <- & ->).
  destruct j as [|j]; [lia|]. simpl in Hf.
  apply list_elem_of_lookup_2, list_elem_of_filter in Hf as [Hfp Hf].
  apply list_elem_of_split in Hf as (p1 & p2 & ->).
  exists (pre ++ r :: p1), p2, r. split; [by rewrite <-app_assoc|].
  split; [|done]. apply elem_of_app. right. left.
Qed.

(** X8. Whatever the service answers and whatever the reply, every request
    of every batch a run executes is a trash request for a record of the
    listing that stands after another record with the same fingerprint. *)
Theorem only_later_copies_are_trashed files e order r :
  order ∈ executed (main files e []).2 →
  r ∈ order →
  ∃ pre f post keeper,
    r = Trash (id f)
    ∧ files = pre ++ f :: post
    ∧ keeper ∈ pre
    ∧ md5Checksum keeper = md5Checksum f.
Proof.
  intros Horder%executed_main_from Hr.
  pose proof (elem_of_concat _ _ _ Hr Horder) as Hin.
  rewrite seal_concat in Hin. simpl in Hin.
  apply list_elem_of_fmap in Hin as (f & -> & Hf).
  destruct (extra_has_earlier_copy files f Hf) as (pre & post & keeper & ? & ? & ?).
  by exists pre, f, post, keeper.
Qed.

Lemma only_later_copies_are_trashed_witness :
  [Trash "2"] ∈ executed (main scenario_A (failing_on "2" "y") []).2
  ∧ Trash "2" ∈ [Trash "2"]
  ∧ ∃ pre f post keeper,
      Trash "2" = Trash (id f)
      ∧ scenario_A = pre ++ f :: post
      ∧ keeper ∈ pre
      ∧ md5Checksum keeper = md5Checksum f.
Proof.
  assert ([Trash "2"] ∈ executed (main scenario_A (failing_on "2" "y") []).2)
    as Horder.
  { assert (executed (main scenario_A (failing_on "2" "y") []).2 = [[Trash "2"]])
      as -> by (by vm_compute). left. }
  assert (Trash "2" ∈ [Trash "2"]) as Hr by left.
  split; [exact Horder|]. split; [exact Hr|].
  apply (only_later_copies_are_trashed scenario_A (failing_on "2" "y")
           [Trash "2"] (Trash "2") Horder Hr).
Defined.

(** ** A batch call that raises *)

(** When a call raises, the calls before it having returned, the batches
    up to that one have been handed over and the rest is not run. *)
Lemma execute_all_raises batches e t n order :
  batches !! n = Some order → order ≠ [] →
  remote e (t ++ (Execute <$> take n batches)) order = Raised →
  (∀ m b, m < n → batches !! m = Some b → b ≠ [] →
          remote e (t ++ (Execute <$> take m batches)) b ≠ Raised) →
  execute_all batches e t = (None, t ++ (Execute <$> take (S n) batches)).
Proof.
  revert t n. induction batches as [|b bs IH]; intros t n Hn Hne Hraised Hbefore;
    [done|].
  rewrite execute_all_cons. destruct n as [|n].
  - injection Hn as ->. simpl in Hraised. rewrite app_nil_r in Hraised.
    rewrite answer_remote, Hraised by done. done.
  - assert (answer e t b ≠ Raised) as Hb.
    { destruct b as [|r b]; [done|]. rewrite answer_remote by done.
      specialize (Hbefore 0 (r :: b) ltac:(lia) eq_refl ltac:(done)).
      simpl in Hbefore. by rewrite app_nil_r in Hbefore. }
    destruct (answer e t b); [done|].
    rewrite (IH (t ++ [Execute b]) n); [by rewrite <-app_assoc|done|done|..].
    + by rewrite <-app_assoc.
    + intros m b' Hm Hb' Hne'. rewrite <-app_assoc.
      apply (Hbefore (S m) b'); [lia|done|done].
Qed.

(** X10. When, after a confirming reply, a batch call of the duplicate
    remover raises, the calls before it having returned, the exception
    leaves the run at that call: the sealed batches after it are never
    executed and the closing line is not printed. *)
Theorem raising_batch_ends_the_run dupes e n order :
  dupes ≠ [] → strip (reply e) = "y" →
  seal 1000 [] (trash_requests dupes) !! n = Some order → order ≠ [] →
  remote e ((preamble dupes ++ [Print "Trashing."])
            ++ (Execute <$> take n (seal 1000 [] (trash_requests dupes))))
    order = Raised →
  (∀ m b, m < n → seal 1000 [] (trash_requests dupes) !! m = Some b → b ≠ [] →
          remote e ((preamble dupes ++ [Print "Trashing."])
                    ++ (Execute <$> take m (seal 1000 [] (trash_requests dupes))))
            b ≠ Raised) →
  main_from dupes e [] =
  (None, (preamble dupes ++ [Print "Trashing."])
         ++ (Execute <$> take (S n) (seal 1000 [] (trash_requests dupes))))
  ∧ executed (main_from dupes e []).2
    = take (S n) (seal 1000 [] (trash_requests dupes))
  ∧ last (main_from dupes e []).2 = Some (Execute order).
Proof.
  intros Hne Hy Hn Horder Hraised Hbefore.
  assert (main_from dupes e [] =
          (None, (preamble dupes ++ [Print "Trashing."])
                 ++ (Execute <$> take (S n) (seal 1000 [] (trash_requests dupes)))))
    as ->.
  { rewrite main_from_run, bool_decide_true by done.
    by rewrite (execute_all_raises _ e _ n order). }
  split; [done|]. cbn [snd]. split.
  - rewrite !executed_app, executed_preamble, executed_batches. done.
  - rewrite (take_S_r _ _ _ Hn), fmap_app, !app_assoc. apply last_snoc.
Qed.

Lemma raising_batch_ends_the_run_witness :
  sets_A ≠ [] ∧ strip (reply (unreachable "y")) = "y"
  ∧ seal 1000 [] (trash_requests sets_A) !! 0 = Some [Trash "2"]
  ∧ (main_from sets_A (unreachable "y") []).1 = None
  ∧ executed (main_from sets_A (unreachable "y") []).2 = [[Trash "2"]].
Proof.
  assert (seal 1000 [] (trash_requests sets_A) !! 0 = Some [Trash "2"]) as Hn
    by reflexivity.
  destruct (raising_batch_ends_the_run sets_A (unreachable "y") 0 [Trash "2"])
    as (Hrun & Hexecuted & _); [done|done|exact Hn|done|done|intros; lia|].
  split; [done|]. split; [done|]. split; [exact Hn|].
  split; [by rewrite Hrun|]. rewrite Hexecuted. reflexivity.
Defined.

(** ** The prompt *)

Lemma prompts_app (t t' : trace) : prompts (t ++ t') = prompts t ++ prompts t'.
Proof. apply omap_app. Qed.

Lemma prompts_none (t : trace) : Forall (λ ev, ¬ is_input ev) t → prompts t = [].
Proof.
  induction 1 as [|ev t Hev _ IH]; [done|].
  destruct ev; done.
Qed.

(** X11. Whatever the service does, a run with duplicate sets shows the
    prompt once, with the same text, and a run without shows none. *)
Theorem prompt_shown_once dupes e :
  (dupes = [] → prompts (main_from dupes e []).2 = [])
  ∧ (dupes ≠ [] →
       prompts (main_from dupes e []).2 = ["Great. Now trash the extras? (y/n) "]).
Proof.
  split.
  - intros ->. by rewrite main_from_empty.
  - intros Hne. destruct (main_from_trace dupes e Hne) as (after & -> & Hafter & _).
    destruct (preamble_split dupes) as (lines & Hlines & ->).
    rewrite !prompts_app, (prompts_none after) by done.
    rewrite (prompts_none lines); [done|].
    eapply Forall_impl; [done|]. intros ev Hev. destruct ev; simpl in *; tauto.
Qed.

Lemma prompt_shown_once_witness :
  sets_A ≠ []
  ∧ prompts (main_from sets_A (unreachable "no") []).2
    = ["Great. Now trash the extras? (y/n) "].
Proof.
  split; [done|].
  apply (proj2 (prompt_shown_once sets_A (unreachable "no"))). done.
Defined.

(** ** After a confirmed run *)

Lemma requests_of_confirmed_run dupes e :
  always_returns e → strip (reply e) = "y" →
  concat (executed (main_from dupes e []).2) = trash_requests dupes.
Proof.
  intros He Hy. destruct (decide (dupes = [])) as [->|Hne].
  - by rewrite main_from_empty.
  - rewrite main_from_returns by done. cbn [snd].
    rewrite !executed_app, executed_preamble, executed_batches.
    change (executed [Print "Trashing."]) with (@nil (list request)).
    change (executed [Print "We are done. Check the trash for your files."])
      with (@nil (list request)).
    rewrite app_nil_l, app_nil_r. simpl app. by rewrite seal_concat.
Qed.

Lemma same_image_same_element {A B : Type} (g : A → B) (l : list A) x y :
  NoDup (g <$> l) → x ∈ l → y ∈ l → g x = g y → x = y.
Proof.
  induction l as [|z l IH]; intros Hnd Hx Hy Hg.
  - by apply elem_of_nil in Hx.
  - rewrite fmap_cons in Hnd. apply NoDup_cons in Hnd as [Hz Hnd].
    apply elem_of_cons in Hx as [->|Hx], Hy as [->|Hy].
    + done.
    + destruct Hz. rewrite Hg. by apply list_elem_of_fmap_2.
    + destruct Hz. rewrite <-Hg. by apply list_elem_of_fmap_2.
    + by apply IH.
Qed.

Lemma elem_of_extras_find_dupes files f :
  f ∈ extras (find_dupes files) ↔ f ∈ drop 1 (bearing (md5Checksum f) files).
Proof.
  rewrite elem_of_extras. split.
  - intros (s & j & (fp & -> & _)%elem_of_find_dupes & Hj & Hf).
    assert (md5Checksum f = fp) as ->.
    { apply list_elem_of_lookup_2, list_elem_of_filter in Hf. by destruct Hf. }
    apply list_elem_of_lookup. exists (j - 1). rewrite lookup_drop.
    by replace (1 + (j - 1)) with j by lia.
  - intros [i Hi]%list_elem_of_lookup. rewrite lookup_drop in Hi.
    exists (bearing (md5Checksum f) files), (1 + i). split; [|split; [lia|done]].
    apply elem_of_find_dupes. exists (md5Checksum f). split; [done|].
    apply lookup_lt_Some in Hi. lia.
Qed.

Lemma extras_find_dupes_listed files f :
  f ∈ extras (find_dupes files) → f ∈ files.
Proof.
  intros (pre & post & keeper & -> & _)%extra_has_earlier_copy.
  apply elem_of_app. right. left.
Qed.

(** With pairwise different ids, the requests of a run name the removable
    members only. *)
Lemma trashed_iff_extra files f :
  NoDup (id <$> files) → f ∈ files →
  Trash (id f) ∈ trash_requests (find_dupes files)
  ↔ f ∈ drop 1 (bearing (md5Checksum f) files).
Proof.
  intros Hnd Hf. rewrite <-elem_of_extras_find_dupes. unfold trash_requests.
  rewrite list_elem_of_fmap. split.
  - intros (g & [= Hid] & Hg).
    by rewrite (same_image_same_element id files f g Hnd Hf
                  (extras_find_dupes_listed files g Hg) Hid).
  - intros Hin. by exists f.
Qed.

Lemma filter_on_members {A : Type} (P Q : A → Prop)
    `{∀ x, Decision (P x)} `{∀ x, Decision (Q x)} (l : list A) :
  (∀ x, x ∈ l → P x ↔ Q x) → filter P l = filter Q l.
Proof.
  induction l as [|x l IH]; intros Hpq; [done|].
  rewrite !filter_cons, IH by (intros y Hy; apply Hpq; by right).
  destruct (decide (P x)) as [HP|HP], (decide (Q x)) as [HQ|HQ]; try done.
  - destruct HQ. apply Hpq; [left|done].
  - destruct HP. apply Hpq; [left|done].
Qed.

Lemma keep_first_of_distinct (r : FileRecord) (tl : list FileRecord) :
  NoDup (r :: tl) → filter (λ f, f ∉ tl) (r :: tl) = [r].
Proof.
  intros [Hr _]%NoDup_cons. rewrite filter_cons, decide_True by done.
  f_equal. induction tl as [|x l IH] using rev_ind; [done|].
  apply elem_of_nil_inv. intros y [Hy Hin]%list_elem_of_filter. done.
Qed.

(** What is left of the records of a fingerprint after a confirmed run. *)
Lemma bearing_remaining files e fp :
  always_returns e → NoDup (id <$> files) → strip (reply e) = "y" →
  bearing fp (remaining (main files e []).2 files)
  = filter (λ f, f ∉ drop 1 (bearing fp files)) (bearing fp files).
Proof.
  intros He Hnd Hy. unfold remaining, main.
  rewrite requests_of_confirmed_run by done. unfold bearing at 1.
  rewrite list_filter_filter.
  rewrite (list_filter_iff _
             (λ f, (Trash (id f) ∉ trash_requests (find_dupes files))
                   ∧ md5Checksum f = fp)) by (intros f; tauto).
  rewrite <-list_filter_filter. fold (bearing fp files).
  apply filter_on_members. intros f [<- Hf]%list_elem_of_filter.
  by rewrite trashed_iff_extra.
Qed.

(** X9. After a confirmed run whose batch calls returned, on a listing with
    pairwise different ids, a listing of what is not trashed has no
    duplicate set left, and of every fingerprint it still has exactly one
    record, the earliest of the former listing: no content is lost, and a
    second run finds nothing to do. *)
Theorem confirmed_run_leaves_one_copy files e :
  always_returns e → NoDup (id <$> files) → strip (reply e) = "y" →
  find_dupes (remaining (main files e []).2 files) = []
  ∧ (∀ fp r, head (bearing fp files) = Some r →
             bearing fp (remaining (main files e []).2 files) = [r])
  ∧ (remaining (main files e []).2 files) `sublist_of` files.
Proof.
  intros He Hnd Hy.
  assert (∀ fp, length (bearing fp (remaining (main files e []).2 files)) ≤ 1)
    as Hone.
  { intros fp. rewrite bearing_remaining by done.
    destruct (bearing fp files) as [|r tl] eqn:E; [simpl; lia|].
    simpl drop. rewrite drop_0, keep_first_of_distinct; [simpl; lia|].
    rewrite <-E. apply NoDup_filter. by apply NoDup_fmap_1 in Hnd. }
  split; [|split].
  - apply elem_of_nil_inv. intros s (fp & -> & Hlen)%elem_of_find_dupes.
    specialize (Hone fp). lia.
  - intros fp r Hr. rewrite bearing_remaining by done.
    destruct (bearing fp files) as [|r' tl] eqn:E; [done|].
    injection Hr as ->. simpl drop. rewrite drop_0.
    apply keep_first_of_distinct.
    rewrite <-E. apply NoDup_filter. by apply NoDup_fmap_1 in Hnd.
  - apply sublist_filter.
Qed.

Lemma confirmed_run_leaves_one_copy_witness :
  always_returns (all_fine "y") ∧ NoDup (id <$> scenario_A)
  ∧ strip (reply (all_fine "y")) = "y"
  ∧ find_dupes (remaining (main scenario_A (all_fine "y") []).2 scenario_A) = [].
Proof.
  assert (NoDup (id <$> scenario_A)) as Hnd.
  { apply (bool_decide_unpack _). by vm_compute. }
  split; [apply all_fine_returns|]. split; [exact Hnd|]. split; [done|].
  apply (confirmed_run_leaves_one_copy scenario_A (all_fine "y")
           (all_fine_returns "y") Hnd eq_refl).
Defined.

(** ** More on the chunks *)

Lemma chunks_length {A : Type} (l : list A) n :
  length (DateFix.chunks l n) = ceil_div (length l) n.
Proof.
  unfold DateFix.chunks, DateFix.xrange, ceil_div.
  by rewrite !length_fmap, length_seq, Nat.sub_0_r.
Qed.

Lemma chunks_lookup {A : Type} (l : list A) n i c :
  DateFix.chunks l n !! i = Some c →
  c = take n (drop (i * n) l) ∧ i < ceil_div (length l) n.
Proof.
  unfold DateFix.chunks, DateFix.xrange, ceil_div.
  rewrite !list_lookup_fmap, Nat.sub_0_r. intros Hi.
  destruct (seq 0 ((length l + n - 1) / n) !! i) as [k|] eqn:Ek; [|done].
  apply lookup_seq in Ek as [-> Hlt]. simpl in Hi. by injection Hi as <-.
Qed.

(** X12. For a positive size, [chunks] cuts a list into consecutive pieces:
    put end to end they are the list; there are [ceil(len / n)] of them;
    none is empty and none is longer than [n]; and all but the last have
    exactly [n] elements. *)
Theorem chunks_partition {A : Type} (l : list A) n :
  1 ≤ n →
  concat (DateFix.chunks l n) = l
  ∧ length (DateFix.chunks l n) = ceil_div (length l) n
  ∧ (∀ i c, DateFix.chunks l n !! i = Some c →
            1 ≤ length c ≤ n
            ∧ (S i < length (DateFix.chunks l n) → length c = n)).
Proof.
  intros Hn. split; [by apply concat_chunks|]. split; [apply chunks_length|].
  intros i c Hc. rewrite chunks_length.
  apply chunks_lookup in Hc as [-> Hi]. rewrite length_take, length_drop.
  unfold ceil_div in *.
  pose proof (Nat.div_mod_eq (length l + n - 1) n) as Hd.
  pose proof (Nat.mod_upper_bound (length l + n - 1) n ltac:(lia)) as Hm.
  split; [nia|]. intros Hlast. nia.
Qed.

Lemma chunks_partition_witness :
  1 ≤ 3 ∧ DateFix.chunks (seq 0 10) 3 = [[0; 1; 2]; [3; 4; 5]; [6; 7; 8]; [9]]
  ∧ concat (DateFix.chunks (seq 0 10) 3) = seq 0 10.
Proof.
  split; [lia|]. split; [reflexivity|].
  apply (chunks_partition (seq 0 10) 3). lia.
Defined.

(** ** More on the date fixer *)

Section fixer.

Variable strptime : string → string → option DateFix.datetime.
Variable isoformat : DateFix.datetime → string → string.

#[local] Abbreviation batch_patch_dates :=
  (DateFix.batch_patch_dates strptime isoformat).
#[local] Abbreviation patch_for := (Dates.patch_for strptime isoformat).
#[local] Abbreviation patches := (Dates.patches strptime isoformat).
#[local] Abbreviation capture_date := (Dates.capture_date strptime).

Lemma elem_of_patches files r :
  r ∈ patches files ↔
  ∃ f d, f ∈ files ∧ capture_date f = Some d
         ∧ DateFix.formatDate isoformat d ≠ DateFix.modifiedDate f
         ∧ r = Patch (DateFix.id f) (DateFix.formatDate isoformat d).
Proof.
  unfold Dates.patches. rewrite list_elem_of_omap. unfold Dates.patch_for. split.
  - intros (f & Hf & Hr). destruct (capture_date f) as [d|] eqn:Ed; [|done].
    destruct (decide (DateFix.formatDate isoformat d = DateFix.modifiedDate f))
      as [Heq|Hne].
    + by rewrite bool_decide_true in Hr.
    + rewrite bool_decide_false in Hr by done. injection Hr as <-.
      by exists f, d.
  - intros (f & d & Hf & Hd & Hne & ->). exists f. split; [done|].
    by rewrite Hd, bool_decide_false.
Qed.

(** X13. When the batch calls return, a pass of the date fixer executes one
    batch per chunk of 100 items, also a chunk that calls for no request,
    and none on an empty listing; the requests of all batches are, in the
    order of the listing, one patch request for each item whose capture
    date, formatted, is not its modification date, carrying the id of the
    item and that formatted date. *)
Theorem pass_patches_stale_dates files e :
  always_returns e →
  (batch_patch_dates files e []).1 = Some ()
  ∧ executed (batch_patch_dates files e []).2
    = patches <$> DateFix.chunks files 100
  ∧ length (executed (batch_patch_dates files e []).2)
    = ceil_div (length files) 100
  ∧ concat (executed (batch_patch_dates files e []).2) = patches files
  ∧ (∀ r, r ∈ concat (executed (batch_patch_dates files e []).2) ↔
          ∃ f d, f ∈ files ∧ capture_date f = Some d
                 ∧ DateFix.formatDate isoformat d ≠ DateFix.modifiedDate f
                 ∧ r = Patch (DateFix.id f) (DateFix.formatDate isoformat d)).
Proof.
  intros He.
  assert (concat (executed (batch_patch_dates files e []).2) = patches files)
    as Hall by (by apply patch_requests_of_pass).
  rewrite Hall. rewrite batch_patch_dates_run, execute_all_returns by done.
  cbn [fst snd]. rewrite app_nil_l, executed_batches.
  split; [done|]. split; [done|].
  split; [by rewrite length_fmap, chunks_length|]. split; [done|].
  apply elem_of_patches.
Qed.

Lemma datefix_main_run files e :
  DateFix.main strptime isoformat files e [] =
  if bool_decide (strip (reply e) = "y") then
    match execute_all (patches <$> DateFix.chunks files 100) e
            [Print ("Found: " +:+ pretty (length files) +:+ " images.");
             RawInput "Great. Now fix the dates? (y/n) "] with
    | (Some _, t) => (Some (), t ++ [Print "And we are done."])
    | (None, t) => (None, t)
    end
  else (Some (),
        [Print ("Found: " +:+ pretty (length files) +:+ " images.");
         RawInput "Great. Now fix the dates? (y/n) ";
         Print "And we are done."]).
Proof.
  unfold DateFix.main. rewrite run_bind. unfold print at 1, emit at 1.
  rewrite run_bind. unfold raw_input at 1. rewrite run_bind.
  destruct (bool_decide (strip (reply e) = "y")).
  - rewrite batch_patch_dates_run. simpl app.
    destruct (execute_all _ e _) as [[[]|] t]; done.
  - done.
Qed.

(** X14. The date fixer executes a batch only after a reply that, stripped,
    is [y]; after any other reply its whole run is the count, the prompt and
    the closing line.  Unlike the duplicate remover it prints the same
    closing line in both cases, whenever the run is not left by an
    exception, which does not happen when the batch calls return. *)
Theorem date_fix_asks_first files e :
  (strip (reply e) ≠ "y" →
     DateFix.main strptime isoformat files e [] =
     (Some (),
      [Print ("Found: " +:+ pretty (length files) +:+ " images.");
       RawInput "Great. Now fix the dates? (y/n) ";
       Print "And we are done."]))
  ∧ (∀ order, Execute order ∈ (DateFix.main strptime isoformat files e []).2 →
              strip (reply e) = "y")
  ∧ ((DateFix.main strptime isoformat files e []).1 = Some () →
     last (DateFix.main strptime isoformat files e []).2
     = Some (Print "And we are done."))
  ∧ (always_returns e →
     (DateFix.main strptime isoformat files e []).1 = Some ()).
Proof.
  rewrite datefix_main_run.
  destruct (decide (strip (reply e) = "y")) as [Hy|Hn].
  - rewrite bool_decide_true by done. split; [done|]. split; [done|]. split.
    + destruct (execute_all _ e _) as [[[]|] t]; [|done].
      intros _. cbn [snd]. by rewrite last_snoc.
    + intros He. by rewrite execute_all_returns.
  - rewrite bool_decide_false by done. split; [done|]. split; [|done].
    intros order Hin. apply list_elem_of_In in Hin. simpl in Hin.
    destruct Hin as [Hin|[Hin|[Hin|[]]]]; discriminate.
Qed.

(** X15. When, after a confirming reply, a batch call of the date fixer
    raises, the calls before it having returned, the exception leaves the
    run at that call: the items of the chunks after it are not patched and
    the closing line is not printed. *)
Theorem raising_batch_ends_the_pass files e n order :
  strip (reply e) = "y" →
  (patches <$> DateFix.chunks files 100) !! n = Some order → order ≠ [] →
  remote e ([Print ("Found: " +:+ pretty (length files) +:+ " images.");
             RawInput "Great. Now fix the dates? (y/n) "]
            ++ (Execute <$> take n (patches <$> DateFix.chunks files 100)))
    order = Raised →
  (∀ m b, m < n → (patches <$> DateFix.chunks files 100) !! m = Some b → b ≠ [] →
          remote e ([Print ("Found: " +:+ pretty (length files) +:+ " images.");
                     RawInput "Great. Now fix the dates? (y/n) "]
                    ++ (Execute <$> take m (patches <$> DateFix.chunks files 100)))
            b ≠ Raised) →
  DateFix.main strptime isoformat files e [] =
  (None, [Print ("Found: " +:+ pretty (length files) +:+ " images.");
          RawInput "Great. Now fix the dates? (y/n) "]
         ++ (Execute <$> take (S n) (patches <$> DateFix.chunks files 100)))
  ∧ executed (DateFix.main strptime isoformat files e []).2
    = take (S n) (patches <$> DateFix.chunks files 100)
  ∧ last (DateFix.main strptime isoformat files e []).2 = Some (Execute order).
Proof.
  intros Hy Hn Horder Hraised Hbefore.
  assert (DateFix.main strptime isoformat files e [] =
          (None, [Print ("Found: " +:+ pretty (length files) +:+ " images.");
                  RawInput "Great. Now fix the dates? (y/n) "]
                 ++ (Execute <$> take (S n) (patches <$> DateFix.chunks files 100))))
    as ->.
  { rewrite datefix_main_run, bool_decide_true by done.
    by rewrite (execute_all_raises _ e _ n order). }
  split; [done|]. cbn [snd]. split.
  - rewrite executed_app, executed_batches. done.
  - rewrite (take_S_r _ _ _ Hn), fmap_app, !app_assoc. apply last_snoc.
Qed.

End fixer.

Lemma pass_patches_stale_dates_witness :
  always_returns (all_fine "y")
  ∧ concat (executed
              (DateFix.batch_patch_dates strptime_fixed isoformat_padded
                 album_before (all_fine "y") []).2)
    = [Patch "a" "2012-06-04T12:00:00.0Z"].
Proof.
  split; [apply all_fine_returns|].
  destruct (pass_patches_stale_dates strptime_fixed isoformat_padded
              album_before (all_fine "y") (all_fine_returns "y"))
    as (_ & _ & _ & -> & _).
  reflexivity.
Defined.

Lemma date_fix_asks_first_witness :
  strip (reply (unreachable "Y")) ≠ "y"
  ∧ DateFix.main strptime_fixed isoformat_padded album_before
      (unreachable "Y") []
    = (Some (),
       [Print "Found: 2 images."; RawInput "Great. Now fix the dates? (y/n) ";
        Print "And we are done."]).
Proof.
  assert (strip (reply (unreachable "Y")) ≠ "y") as Hn by done.
  split; [exact Hn|].
  apply (proj1 (date_fix_asks_first strptime_fixed isoformat_padded
                  album_before (unreachable "Y")) Hn).
Defined.

Lemma raising_batch_ends_the_pass_witness :
  strip (reply (unreachable "y")) = "y"
  ∧ (Dates.patches strptime_fixed isoformat_padded
       <$> DateFix.chunks album_before 100) !! 0
    = Some [Patch "a" "2012-06-04T12:00:00.0Z"]
  ∧ (DateFix.main strptime_fixed isoformat_padded album_before
       (unreachable "y") []).1 = None.
Proof.
  assert ((Dates.patches strptime_fixed isoformat_padded
             <$> DateFix.chunks album_before 100) !! 0
          = Some [Patch "a" "2012-06-04T12:00:00.0Z"]) as Hn by reflexivity.
  destruct (raising_batch_ends_the_pass strptime_fixed isoformat_padded
              album_before (unreachable "y") 0
              [Patch "a" "2012-06-04T12:00:00.0Z"])
    as (Hrun & _); [done|exact Hn|done|done|intros; lia|].
  split; [done|]. split; [exact Hn|]. by rewrite Hrun.
Defined.

(** ** Shown before asked *)

Lemma member_line_reported (sets : list (list FileRecord)) s r :
  s ∈ sets → r ∈ s →
  Print (alternateLink r +:+ " " +:+ title r) ∈ report_lines sets.
Proof.
  intros Hs Hr. unfold report_lines. apply list_elem_of_bind. exists s.
  split; [|done]. right.
  by apply (list_elem_of_fmap_2
              (λ dupe, Print (alternateLink dupe +:+ " " +:+ title dupe))).
Qed.

Lemma extras_members sets r :
  r ∈ extras sets → ∃ s, s ∈ sets ∧ r ∈ s.
Proof.
  intros (s & j & Hs & _ & Hr)%elem_of_extras. exists s. split; [done|].
  by eapply list_elem_of_lookup_2.
Qed.

(** X16. Whatever the service does, every request a run executes is for a
    record whose link and title the run printed before it showed the
    prompt: nothing is trashed that the user was not shown before being
    asked. *)
Theorem trashed_records_were_shown dupes e order req :
  order ∈ executed (main_from dupes e []).2 →
  req ∈ order →
  ∃ r i j,
    req = Trash (id r)
    ∧ (main_from dupes e []).2 !! i
      = Some (Print (alternateLink r +:+ " " +:+ title r))
    ∧ (main_from dupes e []).2 !! j = Some (RawInput prompt)
    ∧ i < j.
Proof.
  intros Horder Hreq.
  assert (dupes ≠ []) as Hne.
  { intros ->. rewrite main_from_empty in Horder. by apply elem_of_nil in Horder. }
  apply executed_main_from in Horder.
  pose proof (elem_of_concat _ _ _ Hreq Horder) as Hin.
  rewrite seal_concat in Hin. simpl in Hin.
  apply list_elem_of_fmap in Hin as (r & -> & Hr).
  destruct (extras_members dupes r Hr) as (s & Hs & Hrs).
  pose proof (member_line_reported dupes s r Hs Hrs) as Hline.
  apply list_elem_of_lookup in Hline as [k Hk].
  destruct (main_from_trace dupes e Hne) as (after & -> & _).
  exists r, (2 + k), (2 + length (report_lines dupes) + 2).
  pose proof (lookup_lt_Some _ _ _ Hk) as Hlt.
  split; [done|].
  assert (preamble dupes ++ after
          = [Print (pretty (length dupes) +:+ " duplicates found. ");
             Print "Please check them."]
            ++ (report_lines dupes
                ++ ([Print "--";
                     PrintWasted (Qmake (reclaimable_bytes dupes) ONE_GIG);
                     RawInput prompt] ++ after))) as ->
    by (unfold preamble; by rewrite <-!app_assoc).
  unfold trace. split; [|split; [|lia]].
  - rewrite lookup_app_r by (simpl; lia).
    replace (2 + k - length
               [Print (pretty (length dupes) +:+ " duplicates found. ");
                Print "Please check them."]) with k by (simpl; lia).
    by rewrite lookup_app_l.
  - rewrite lookup_app_r by (simpl; lia).
    rewrite lookup_app_r by (simpl; lia).
    replace (2 + length (report_lines dupes) + 2
             - length [Print (pretty (length dupes) +:+ " duplicates found. ");
                       Print "Please check them."]
             - length (report_lines dupes)) with 2 by (simpl; lia).
    done.
Qed.

Lemma trashed_records_were_shown_witness :
  [Trash "2"] ∈ executed (main_from sets_A (all_fine "y") []).2
  ∧ Trash "2" ∈ [Trash "2"]
  ∧ ∃ r i j,
      Trash "2" = Trash (id r)
      ∧ (main_from sets_A (all_fine "y") []).2 !! i
        = Some (Print (alternateLink r +:+ " " +:+ title r))
      ∧ (main_from sets_A (all_fine "y") []).2 !! j = Some (RawInput prompt)
      ∧ i < j.
Proof.
  assert ([Trash "2"] ∈ executed (main_from sets_A (all_fine "y") []).2)
    as Horder.
  { assert (executed (main_from sets_A (all_fine "y") []).2 = [[Trash "2"]])
      as -> by (by vm_compute). left. }
  assert (Trash "2" ∈ [Trash "2"]) as Hreq by left.
  split; [exact Horder|]. split; [exact Hreq|].
  apply (trashed_records_were_shown sets_A (all_fine "y") [Trash "2"]
           (Trash "2") Horder Hreq).
Defined.
